(** * TicoVision: template spacing normaliser and bidi display adapter

    A shallow embedding of [scripts/update-body-spacing.py] and of
    [my_tool.py].

    Python [str] values are sequences of Unicode code points; they are
    modelled as lists of [N].  [re.sub] is modelled for the fragment of the
    regular-expression language the script uses: literal text, the greedy
    repetitions [\s*] and [\s+], capture groups, and group references in the
    replacement template. *)

From Stdlib Require Import Ascii String List NArith Arith Bool Lia Permutation.
Import ListNotations.

(** * The programs *)

(** ** Text *)

Definition char := N.
Definition str := list char.

(** The code points of an ASCII literal of the source. *)
Definition lit (s : string) : str :=
  List.map N_of_ascii (list_ascii_of_string s).

Fixpoint str_eqb (a b : str) : bool :=
  match a, b with
  | [], [] => true
  | x :: a', y :: b' => N.eqb x y && str_eqb a' b'
  | _, _ => false
  end.

(** [\s] on a [str] pattern: the code points for which [str.isspace]
    holds (ASCII white space, the separators FS, GS, RS and US, NEL, NBSP and
    the Unicode space separators). *)
Definition is_space (c : char) : bool :=
  ((9 <=? c) && (c <=? 13) || (28 <=? c) && (c <=? 32)
   || (c =? 133) || (c =? 160) || (c =? 5760)
   || (8192 <=? c) && (c <=? 8202)
   || (c =? 8232) || (c =? 8233) || (c =? 8239) || (c =? 8287)
   || (c =? 12288))%N.

(** ** Regular expressions of the script *)

Inductive item :=
| Lit (l : str)          (* literal text *)
| Ws (min : nat).        (* [\s*] is [Ws 0], [\s+] is [Ws 1] *)

(** A pattern is a sequence of items, each tagged with the capture group
    that encloses it, if any. *)
Definition pattern := list (option nat * item).

Inductive ritem :=
| RLit (l : str)         (* literal text of the template *)
| RGroup (n : nat).      (* [\n] *)

Definition template := list ritem.

Fixpoint strip_prefix (l s : str) : option str :=
  match l, s with
  | [], _ => Some s
  | x :: l', y :: s' => if N.eqb x y then strip_prefix l' s' else None
  | _ :: _, [] => None
  end.

Fixpoint span_space (s : str) : nat :=
  match s with
  | c :: t => if is_space c then S (span_space t) else 0
  | [] => 0
  end.

(** Greedy repetition with backtracking: try [k] white-space characters,
    then [k - 1], ... down to [min], until the rest of the pattern
    ([cont]) matches. *)
Fixpoint backtrack (cont : str -> option (list str * str)) (s : str)
         (min k : nat) : option (list str * str) :=
  if k <? min then None
  else match cont (skipn k s) with
       | Some (ps, r) => Some (firstn k s :: ps, r)
       | None => match k with
                 | 0 => None
                 | S k' => backtrack cont s min k'
                 end
       end.

(** Match a pattern at the head of [s]: the text matched by each item, and
    the text that follows the match. *)
Fixpoint match_here (p : pattern) (s : str) : option (list str * str) :=
  match p with
  | [] => Some ([], s)
  | (_, Lit l) :: p' =>
      match strip_prefix l s with
      | Some s' =>
          match match_here p' s' with
          | Some (ps, r) => Some (l :: ps, r)
          | None => None
          end
      | None => None
      end
  | (_, Ws min) :: p' => backtrack (match_here p') s min (span_space s)
  end.

(** The text captured by group [n]. *)
Fixpoint capture (n : nat) (p : pattern) (ps : list str) : str :=
  match p, ps with
  | (g, _) :: p', x :: ps' =>
      match g with
      | Some m => if Nat.eqb m n then x ++ capture n p' ps'
                  else capture n p' ps'
      | None => capture n p' ps'
      end
  | _, _ => []
  end.

Fixpoint expand (t : template) (p : pattern) (ps : list str) : str :=
  match t with
  | [] => []
  | RLit l :: t' => l ++ expand t' p ps
  | RGroup n :: t' => capture n p ps ++ expand t' p ps
  end.

(** ** Substitution *)

Section Sub.

(** A matcher tells, at the head of a string, how many characters the
    match consumes and what it is replaced by. *)
Variable M : str -> option (nat * str).

(** [re.sub] scans from left to right, replaces the leftmost match and
    resumes after it; [skip] counts the characters of the current match
    still to be dropped. *)
Fixpoint sub_from (skip : nat) (s : str) : str :=
  match s with
  | [] =>
      match skip with
      | 0 => match M [] with Some (_, r) => r | None => [] end
      | S _ => []
      end
  | c :: t =>
      match skip with
      | S k => sub_from k t
      | 0 =>
          match M s with
          | Some (0, r) => r ++ c :: sub_from 0 t
          | Some (S n, r) => r ++ sub_from n t
          | None => c :: sub_from 0 t
          end
      end
  end.

Definition gsub (s : str) : str := sub_from 0 s.

End Sub.

Definition matcher (p : pattern) (t : template) (s : str)
  : option (nat * str) :=
  match match_here p s with
  | Some (ps, _) => Some (length (concat ps), expand t p ps)
  | None => None
  end.

(** [re.sub(pattern, repl, content)] *)
Definition re_sub (p : pattern) (t : template) (content : str) : str :=
  gsub (matcher p t) content.

(** ** The rules of [update-body-spacing.py] *)

(** The double quote. *)
Definition dq : str := [34%N].

Definition td13 : str :=
  lit "<td style=" ++ dq ++ lit "padding-top: 13px;" ++ dq ++ lit ">".
Definition td20 : str :=
  lit "<td style=" ++ dq ++ lit "padding-top: 20px;" ++ dq ++ lit ">".
Definition td24 : str :=
  lit "<td style=" ++ dq ++ lit "padding-top: 24px;" ++ dq ++ lit ">".

Definition top_border_comment : str :=
  lit "<!-- Top border above subject -->".

Definition div13 : str :=
  lit "<div style=" ++ dq
  ++ lit "border-top: 1px solid #000000; margin-bottom: 13px;" ++ dq
  ++ lit "></div>".
Definition div20 : str :=
  lit "<div style=" ++ dq
  ++ lit "border-top: 1px solid #000000; margin-bottom: 20px;" ++ dq
  ++ lit "></div>".

Definition letter_spacing : str := lit "letter-spacing: -0.3px;".
Definition border_bottom13 : str :=
  lit "border-bottom: 1px solid #000000; padding-bottom: 13px;".
Definition two_spaces_border_bottom20 : str :=
  lit "  border-bottom: 1px solid #000000; padding-bottom: 20px;".

Definition div_font_family : str :=
  lit "<div style=" ++ dq ++ lit "font-family".

Definition text_align_right : str := lit "text-align: right;".
Definition margin_bottom13 : str :=
  lit " margin-bottom: 13px;" ++ dq ++ lit ">".
Definition margin_bottom20 : str :=
  lit " margin-bottom: 20px;" ++ dq ++ lit ">".
Definition padding_bottom10 : str :=
  lit " padding-bottom: 10px;" ++ dq ++ lit ">".
Definition padding_bottom20 : str :=
  lit " padding-bottom: 20px;" ++ dq ++ lit ">".

Record rule := { pat : pattern; repl : template }.

(** 1. the [td] with [padding-top: 13px;], then group 1:
       [(\s*<!-- Top border above subject -->)]; replaced by the [td] with
       [padding-top: 20px;] and [\1]. *)
Definition rule1 : rule :=
  {| pat := [(None, Lit td13); (Some 1, Ws 0);
             (Some 1, Lit top_border_comment)];
     repl := [RLit td20; RGroup 1] |}.

(** 2. the separator [div] with [margin-bottom: 13px;] *)
Definition rule2 : rule :=
  {| pat := [(None, Lit div13)];
     repl := [RLit div20] |}.

(** 3. [(letter-spacing: -0\.3px;)\s+(border-bottom: ... padding-bottom: 13px;)]
       becomes [\1  border-bottom: ... padding-bottom: 20px;] *)
Definition rule3 : rule :=
  {| pat := [(Some 1, Lit letter_spacing); (None, Ws 1);
             (Some 2, Lit border_bottom13)];
     repl := [RGroup 1; RLit two_spaces_border_bottom20] |}.

(** 4. the [td] with [padding-top: 13px;], then group 1: [\s*] and the
       opening of a [div] whose style starts with [font-family]; replaced by
       the [td] with [padding-top: 20px;] and [\1]. *)
Definition rule4 : rule :=
  {| pat := [(None, Lit td13); (Some 1, Ws 0);
             (Some 1, Lit div_font_family)];
     repl := [RLit td20; RGroup 1] |}.

(** 5. [(text-align: right;)] and [ margin-bottom: 13px;] closing the
       attribute and the tag; replaced by [\1] and [ margin-bottom: 20px;]. *)
Definition rule5 : rule :=
  {| pat := [(Some 1, Lit text_align_right); (None, Lit margin_bottom13)];
     repl := [RGroup 1; RLit margin_bottom20] |}.

(** 6. [(text-align: right;)] and [ padding-bottom: 10px;] closing the
       attribute and the tag; replaced by [\1] and [ padding-bottom: 20px;]. *)
Definition rule6 : rule :=
  {| pat := [(Some 1, Lit text_align_right); (None, Lit padding_bottom10)];
     repl := [RGroup 1; RLit padding_bottom20] |}.

(** 8. the [td] with [padding-top: 24px;]; replaced by the [td] with
       [padding-top: 20px;]. *)
Definition rule8 : rule :=
  {| pat := [(None, Lit td24)];
     repl := [RLit td20] |}.

Definition apply (r : rule) (content : str) : str :=
  re_sub (pat r) (repl r) content.

(** The rules in the order the script applies them. *)
Definition rules : list rule :=
  [rule1; rule2; rule3; rule4; rule5; rule6; rule8].

(** The body of the loop between reading and writing the file. *)
Definition substitute (content : str) : str :=
  fold_left (fun c r => apply r c) rules content.

(** [normalize]: the transformed content and [content != original_content]. *)
Definition normalize (original_content : str) : str * bool :=
  let content := substitute original_content in
  (content, negb (str_eqb content original_content)).

(** ** The loop over the template files *)

Definition path := string.

(** The text of the files, as [read] returns it. *)
Definition file_system := path -> option str.

Definition store (fs : file_system) (p : path) (content : str)
  : file_system :=
  fun q => if String.eqb q p then Some content else fs q.

Inductive mode := ReadMode | WriteMode.

Inductive message :=
| Found (n : nat)
| Processing (p : path)
| Updated
| NoChanges
| AllProcessed.

Inductive event :=
| EPrint (m : message)
| EOpen (p : path) (m : mode) (encoding : string)
| ERead (p : path)
| EWrite (p : path) (content : str).

Definition utf8 : string := "utf-8".

(** One iteration of the loop.  A path that cannot be opened raises, which
    ends the run: [None]. *)
Definition process_file (file_path : path) (fs : file_system)
  : option (file_system * list event) :=
  match fs file_path with
  | None => None
  | Some content0 =>
      let original_content := content0 in
      let content := substitute content0 in
      if negb (str_eqb content original_content)
      then Some (store fs file_path content,
                 [EPrint (Processing file_path);
                  EOpen file_path ReadMode utf8; ERead file_path;
                  EOpen file_path WriteMode utf8; EWrite file_path content;
                  EPrint Updated])
      else Some (fs,
                 [EPrint (Processing file_path);
                  EOpen file_path ReadMode utf8; ERead file_path;
                  EPrint NoChanges])
  end.

Fixpoint process_all (body_files : list path) (fs : file_system)
  : option (file_system * list event) :=
  match body_files with
  | [] => Some (fs, [])
  | p :: rest =>
      match process_file p fs with
      | None => None
      | Some (fs1, t1) =>
          match process_all rest fs1 with
          | None => None
          | Some (fs2, t2) => Some (fs2, t1 ++ t2)
          end
      end
  end.

(** The script, given the paths [glob.glob] returns. *)
Definition main (body_files : list path) (fs : file_system)
  : option (file_system * list event) :=
  match process_all body_files fs with
  | None => None
  | Some (fs', t) =>
      Some (fs', EPrint (Found (length body_files)) :: t
                 ++ [EPrint AllProcessed])
  end.

(** ** The files on disk *)

(** The script opens its files in text mode without [newline=]: reading
    turns every CR LF and every CR into LF, writing turns every LF into
    [os.linesep].  [pending_cr] tells that the character before was a CR. *)
Fixpoint read_newlines (pending_cr : bool) (s : str) : str :=
  match s with
  | [] => []
  | c :: t =>
      if N.eqb c 13 then 10%N :: read_newlines true t
      else if N.eqb c 10 && pending_cr then read_newlines false t
      else c :: read_newlines false t
  end.

Definition universal_newlines (raw : str) : str := read_newlines false raw.

Definition write_newlines (linesep : str) (s : str) : str :=
  flat_map (fun c => if N.eqb c 10 then linesep else [c]) s.

(** What a path holds: bytes that are not UTF-8, or text, with the line
    ends as they are stored. *)
Inductive stored :=
| Undecodable
| Text (raw : str).

Record disk := {
  holds : path -> option stored;      (* [None]: there is no such file *)
  writable : path -> bool             (* [open(path, 'w')] is not refused *)
}.

Inductive error := NotFound | DecodeFailed | WriteRefused.

(** [f.read()] of the file at [p]. *)
Definition read_text (d : disk) (p : path) : option str :=
  match holds d p with
  | Some (Text raw) => Some (universal_newlines raw)
  | _ => None
  end.

(** The disk after [f.write(content)] to the file at [p]. *)
Definition put (linesep : str) (d : disk) (p : path) (content : str)
  : disk :=
  {| holds := fun q => if String.eqb q p
                       then Some (Text (write_newlines linesep content))
                       else holds d q;
     writable := writable d |}.

(** One iteration of the loop on the disk.  An exception ends the run; what
    was written before stays written. *)
Definition process_file_disk (linesep : str) (file_path : path) (d : disk)
  : disk * list event * option error :=
  match holds d file_path with
  | None => (d, [EPrint (Processing file_path)], Some NotFound)
  | Some Undecodable =>
      (d, [EPrint (Processing file_path); EOpen file_path ReadMode utf8],
       Some DecodeFailed)
  | Some (Text raw) =>
      let content0 := universal_newlines raw in
      let original_content := content0 in
      let content := substitute content0 in
      if negb (str_eqb content original_content)
      then if writable d file_path
           then (put linesep d file_path content,
                 [EPrint (Processing file_path);
                  EOpen file_path ReadMode utf8; ERead file_path;
                  EOpen file_path WriteMode utf8; EWrite file_path content;
                  EPrint Updated],
                 None)
           else (d,
                 [EPrint (Processing file_path);
                  EOpen file_path ReadMode utf8; ERead file_path],
                 Some WriteRefused)
      else (d,
            [EPrint (Processing file_path);
             EOpen file_path ReadMode utf8; ERead file_path;
             EPrint NoChanges],
            None)
  end.

Fixpoint process_all_disk (linesep : str) (body_files : list path)
         (d : disk) : disk * list event * option error :=
  match body_files with
  | [] => (d, [], None)
  | p :: rest =>
      match process_file_disk linesep p d with
      | (d1, t1, Some e) => (d1, t1, Some e)
      | (d1, t1, None) =>
          match process_all_disk linesep rest d1 with
          | (d2, t2, r) => (d2, t1 ++ t2, r)
          end
      end
  end.

(** The script on the disk, given the paths [glob.glob] returns. *)
Definition main_disk (linesep : str) (body_files : list path) (d : disk)
  : disk * list event * option error :=
  match process_all_disk linesep body_files d with
  | (d', t, None) =>
      (d', EPrint (Found (length body_files)) :: t
           ++ [EPrint AllProcessed], None)
  | (d', t, Some e) =>
      (d', EPrint (Found (length body_files)) :: t, Some e)
  end.

(** ** [my_tool.py] *)

Section BidiAdapter.

(** [bidi.algorithm.get_display], of the python-bidi package. *)
Variable get_display : str -> str.

Definition fix_text (text : str) : str := get_display text.

End BidiAdapter.

(** * Vocabulary of the proofs *)

Definition sp : str := [32%N].
Definition nl : str := [10%N].

(** ** Matches and barriers *)

(** A matcher is productive when it never matches the empty string and
    its matches lie within the text; every rule of the script is. *)
Definition productive (M : str -> option (nat * str)) : Prop :=
  forall s n r, M s = Some (n, r) -> 0 < n <= length s.

(** [clean M s]: the pattern matches nowhere in [s]. *)
Definition clean (M : str -> option (nat * str)) (s : str) : Prop :=
  forall a b, s = a ++ b -> M b = None.

(** No match starts strictly inside [w]. *)
Definition nomatch_inside (M : str -> option (nat * str)) (w : str) : Prop :=
  forall w1 w2 v, w = w1 ++ w2 -> w1 <> [] -> w2 <> [] ->
                  M (w2 ++ v) = None.

(** No match that starts before [w] reaches into [w]. *)
Definition nocross (M : str -> option (nat * str)) (w : str) : Prop :=
  forall u v, u <> [] -> M (u ++ w ++ v) = M u.

Definition barrier (M : str -> option (nat * str)) (w : str) : Prop :=
  nocross M w /\ nomatch_inside M w.

(** [compat Mi Mj]: whatever [Mj] matches, and whatever it puts in its
    place, is a barrier for [Mi], and [Mi] does not match at the
    replacement. *)
Definition compat (Mi Mj : str -> option (nat * str)) : Prop :=
  forall s n r, Mj s = Some (n, r) ->
    barrier Mi (firstn n s) /\ barrier Mi r /\ forall v, Mi (r ++ v) = None.

(** ** The shape of a rule *)

(** Every rule of the script matches a text [pre ++ ws ++ post], where [ws]
    is a run of white space (empty when the pattern has no [\s]), and
    replaces it by [rhead ++ g ++ rtail], where [g] is the run [ws] itself
    or a fixed text. *)
Record shape := {
  pre : str;
  gap : option nat;        (* the least length of [ws], when there is a gap *)
  post : str;
  rhead : str;
  rgap : option str;       (* [None]: the run is copied *)
  rtail : str
}.

Definition all_space (ws : str) : bool := forallb is_space ws.

Definition head_nonspace (l : str) : bool :=
  match l with
  | c :: _ => negb (is_space c)
  | [] => false
  end.

Definition ws_ok (g : option nat) (ws : str) : Prop :=
  match g with
  | None => ws = []
  | Some m => all_space ws = true /\ m <= length ws
  end.

Definition text (P : shape) (ws : str) : str := pre P ++ ws ++ post P.

Definition fill (P : shape) (ws : str) : str :=
  rhead P ++ match rgap P with None => ws | Some x => x end ++ rtail P.

Definition realizes (M : str -> option (nat * str)) (P : shape) : Prop :=
  forall s n r,
    M s = Some (n, r) <->
    exists ws rest,
      s = pre P ++ ws ++ post P ++ rest /\ ws_ok (gap P) ws
      /\ n = length (text P ws) /\ r = fill P ws.

(** [clash a b]: [a] and [b] differ at a position they both have. *)
Fixpoint clash (a b : str) : bool :=
  match a, b with
  | x :: a', y :: b' => if N.eqb x y then clash a' b' else true
  | _, _ => false
  end.

(** [f] holds of every non-empty suffix. *)
Fixpoint every_tail (f : str -> bool) (l : str) : bool :=
  match l with
  | [] => true
  | _ :: t => f l && every_tail f t
  end.

(** ** Decidable criteria *)

Definition nocross_ok (P : shape) (hd : str) : bool :=
  head_nonspace hd
  && every_tail (fun t => clash t hd) (tl (pre P))
  && every_tail (fun t => clash t hd) (post P).

Definition inside_ok (P : shape) (hd tl' : str) : bool :=
  every_tail (fun t => clash (pre P) t) (tl hd)
  && head_nonspace (pre P)
  && every_tail (fun t => clash (pre P) t) tl'.

Definition head_ok (P : shape) (hd tl' : str) : bool :=
  clash (pre P) hd
  || (str_eqb (pre P) hd
      && match gap P with Some _ => true | None => false end
      && head_nonspace (post P) && head_nonspace tl'
      && clash (post P) tl').

(** A continuation that cannot start with white space makes the greedy
    repetition deterministic: only the whole run can be taken. *)
Definition rigid (cont : str -> option (list str * str)) : Prop :=
  forall c t, is_space c = true -> cont (c :: t) = None.

(** ** The shapes of the seven rules *)

Definition border_bottom20 : str :=
  lit "border-bottom: 1px solid #000000; padding-bottom: 20px;".

Definition shape1 : shape :=
  {| pre := td13; gap := Some 0; post := top_border_comment;
     rhead := td20; rgap := None; rtail := top_border_comment |}.
Definition shape2 : shape :=
  {| pre := div13; gap := None; post := [];
     rhead := div20; rgap := None; rtail := [] |}.
Definition shape3 : shape :=
  {| pre := letter_spacing; gap := Some 1; post := border_bottom13;
     rhead := letter_spacing; rgap := Some (sp ++ sp);
     rtail := border_bottom20 |}.
Definition shape4 : shape :=
  {| pre := td13; gap := Some 0; post := div_font_family;
     rhead := td20; rgap := None; rtail := div_font_family |}.
Definition shape5 : shape :=
  {| pre := text_align_right ++ margin_bottom13; gap := None; post := [];
     rhead := text_align_right ++ margin_bottom20; rgap := None;
     rtail := [] |}.
Definition shape6 : shape :=
  {| pre := text_align_right ++ padding_bottom10; gap := None; post := [];
     rhead := text_align_right ++ padding_bottom20; rgap := None;
     rtail := [] |}.
Definition shape8 : shape :=
  {| pre := td24; gap := None; post := [];
     rhead := td20; rgap := None; rtail := [] |}.

(** The matcher of a rule. *)
Definition Mof (r : rule) : str -> option (nat * str) :=
  matcher (pat r) (repl r).

Definition table : list (rule * shape) :=
  [(rule1, shape1); (rule2, shape2); (rule3, shape3); (rule4, shape4);
   (rule5, shape5); (rule6, shape6); (rule8, shape8)].

Definition pair_ok (Pi Pj : shape) : bool :=
  nocross_ok Pi (pre Pj) && inside_ok Pi (pre Pj) (post Pj)
  && nocross_ok Pi (rhead Pj) && inside_ok Pi (rhead Pj) (rtail Pj)
  && head_ok Pi (rhead Pj) (rtail Pj)
  && match rgap Pj with Some x => all_space x | None => true end.

(** ** Vocabulary of the statements *)

(** The rules [rs] applied in order. *)
Definition run (rs : list rule) (content : str) : str :=
  fold_left (fun c r => apply r c) rs content.

(** [occurs p s]: the pattern matches somewhere in [s]. *)
Fixpoint occurs (p : pattern) (s : str) : bool :=
  match match_here p s with
  | Some _ => true
  | None => match s with
            | [] => false
            | _ :: t => occurs p t
            end
  end.

(** [contains_none rs c]: no pattern of [rs] matches anywhere in [c]. *)
Definition contains_none (rs : list rule) (c : str) : bool :=
  forallb (fun r => negb (occurs (pat r) c)) rs.

(** The six patterns that change a 13px or a 10px value. *)
Definition six_patterns : list rule :=
  [rule1; rule2; rule3; rule4; rule5; rule6].

(** Fragments matched by a rule of shape [P], each after some text. *)
Definition weave (P : shape) (frags : list (str * str)) (last : str) : str :=
  fold_right (fun f acc => fst f ++ text P (snd f) ++ acc) last frags.

(** The same, with every fragment replaced and the text in between
    substituted. *)
Definition weave_out (r : rule) (P : shape) (frags : list (str * str))
           (last : str) : str :=
  fold_right (fun f acc => apply r (fst f) ++ fill P (snd f) ++ acc)
             (apply r last) frags.

Definition is_digit (c : char) : bool := ((48 <=? c) && (c <=? 57))%N.

(** [value_edit a b]: [b] has the length of [a] and differs from it only
    where both hold a decimal digit. *)
Fixpoint value_edit (a b : str) : bool :=
  match a, b with
  | [], [] => true
  | x :: a', y :: b' =>
      (N.eqb x y || is_digit x && is_digit y) && value_edit a' b'
  | _, _ => false
  end.

(** The literals of the rules, with the numeric value set apart. *)
Definition td_with (value : str) : str :=
  lit "<td style=" ++ dq ++ lit "padding-top: " ++ value ++ lit "px;" ++ dq
  ++ lit ">".
Definition div_with (value : str) : str :=
  lit "<div style=" ++ dq
  ++ lit "border-top: 1px solid #000000; margin-bottom: " ++ value
  ++ lit "px;" ++ dq ++ lit "></div>".
Definition border_bottom_with (value : str) : str :=
  lit "border-bottom: 1px solid #000000; padding-bottom: " ++ value
  ++ lit "px;".
Definition margin_bottom_with (value : str) : str :=
  lit " margin-bottom: " ++ value ++ lit "px;" ++ dq ++ lit ">".
Definition padding_bottom_with (value : str) : str :=
  lit " padding-bottom: " ++ value ++ lit "px;" ++ dq ++ lit ">".

(** [fragment r m m']: [m] is a text rule [r] matches and [m'] is what the
    rule puts in its place.  In rules 1, 2, 4, 5, 6 and 8 the two differ in
    the numeric value only; in rule 3 the white space [ws] is replaced by
    two spaces as well. *)
Inductive fragment : rule -> str -> str -> Prop :=
| frag1 (ws : str) :
    all_space ws = true ->
    fragment rule1 (td_with (lit "13") ++ ws ++ top_border_comment)
                   (td_with (lit "20") ++ ws ++ top_border_comment)
| frag2 :
    fragment rule2 (div_with (lit "13")) (div_with (lit "20"))
| frag3 (ws : str) :
    all_space ws = true -> 1 <= length ws ->
    fragment rule3
             (letter_spacing ++ ws ++ border_bottom_with (lit "13"))
             (letter_spacing ++ sp ++ sp ++ border_bottom_with (lit "20"))
| frag4 (ws : str) :
    all_space ws = true ->
    fragment rule4 (td_with (lit "13") ++ ws ++ div_font_family)
                   (td_with (lit "20") ++ ws ++ div_font_family)
| frag5 :
    fragment rule5 (text_align_right ++ margin_bottom_with (lit "13"))
                   (text_align_right ++ margin_bottom_with (lit "20"))
| frag6 :
    fragment rule6 (text_align_right ++ padding_bottom_with (lit "10"))
                   (text_align_right ++ padding_bottom_with (lit "20"))
| frag8 :
    fragment rule8 (td_with (lit "24")) (td_with (lit "20")).

(** [rewritten r s s']: [s'] is [s] with every character copied at which
    the pattern of [r] does not match, and with a fragment of [r] replaced
    wherever it does. *)
Inductive rewritten (r : rule) : str -> str -> Prop :=
| rw_nil : rewritten r [] []
| rw_keep (c : char) (a b : str) :
    match_here (pat r) (c :: a) = None ->
    rewritten r a b -> rewritten r (c :: a) (c :: b)
| rw_frag (m m' a b : str) :
    fragment r m m' ->
    rewritten r a b -> rewritten r (m ++ a) (m' ++ b).

Definition example_path : path := "templates/bodies/letter.html"%string.

Definition example_fs : file_system :=
  fun q => if String.eqb q example_path then Some td24 else None.

(** The paths written to, in the order of the trace. *)
Definition written (t : list event) : list path :=
  flat_map (fun e => match e with EWrite p _ => [p] | _ => [] end) t.

(** [listed q files]: the path [q] is among [files]. *)
Definition listed (q : path) (files : list path) : bool :=
  existsb (String.eqb q) files.

Definition example_after : file_system :=
  store example_fs example_path td20.

Definition example_trace : list event :=
  [EPrint (Found 1); EPrint (Processing example_path);
   EOpen example_path ReadMode utf8; ERead example_path;
   EOpen example_path WriteMode utf8; EWrite example_path td20;
   EPrint Updated; EPrint AllProcessed].

Definition example_trace_twice : list event :=
  [EPrint (Found 2); EPrint (Processing example_path);
   EOpen example_path ReadMode utf8; ERead example_path;
   EOpen example_path WriteMode utf8; EWrite example_path td20;
   EPrint Updated; EPrint (Processing example_path);
   EOpen example_path ReadMode utf8; ERead example_path;
   EPrint NoChanges; EPrint AllProcessed].

Definition other_path : path := "templates/bodies/other.html"%string.




(** What the file at [q] holds once the loop has processed it: what it
    held when the substitutions change nothing, else the new text with its
    line ends written as [linesep]. *)
Definition processed (linesep : str) (d : disk) (q : path)
  : option stored :=
  match read_text d q with
  | Some c => if str_eqb (substitute c) c then holds d q
              else Some (Text (write_newlines linesep (substitute c)))
  | None => holds d q
  end.

Definition crlf : str := [13%N; 10%N].

(** A writable template with CR LF line ends that rule 8 changes, and a
    read-only one with CR LF line ends that no rule changes. *)
Definition example_disk : disk :=
  {| holds := fun q =>
       if String.eqb q example_path
       then Some (Text (td24 ++ crlf ++ lit "x" ++ crlf))
       else if String.eqb q other_path
            then Some (Text (lit "plain" ++ crlf))
            else None;
     writable := fun q => String.eqb q example_path |}.

Definition example_disk_after : disk :=
  put nl example_disk example_path (td20 ++ nl ++ lit "x" ++ nl).

Definition example_disk_trace : list event :=
  [EPrint (Found 2); EPrint (Processing example_path);
   EOpen example_path ReadMode utf8; ERead example_path;
   EOpen example_path WriteMode utf8;
   EWrite example_path (td20 ++ nl ++ lit "x" ++ nl);
   EPrint Updated; EPrint (Processing other_path);
   EOpen other_path ReadMode utf8; ERead other_path;
   EPrint NoChanges; EPrint AllProcessed].

(** A list that names both templates twice and then a path that does not
    exist, with the run it gives where [os.linesep] is CR LF. *)
Definition missing_path : path := "templates/bodies/missing.html"%string.

Definition example_files_abort : list path :=
  [example_path; example_path; other_path; other_path; missing_path].

Definition example_disk_after_crlf : disk :=
  put crlf example_disk example_path (td20 ++ nl ++ lit "x" ++ nl).

Definition example_disk_trace_abort : list event :=
  [EPrint (Found 5); EPrint (Processing example_path);
   EOpen example_path ReadMode utf8; ERead example_path;
   EOpen example_path WriteMode utf8;
   EWrite example_path (td20 ++ nl ++ lit "x" ++ nl);
   EPrint Updated; EPrint (Processing example_path);
   EOpen example_path ReadMode utf8; ERead example_path;
   EPrint NoChanges; EPrint (Processing other_path);
   EOpen other_path ReadMode utf8; ERead other_path;
   EPrint NoChanges; EPrint (Processing other_path);
   EOpen other_path ReadMode utf8; ERead other_path;
   EPrint NoChanges; EPrint (Processing missing_path)].

(** [os.linesep] is LF or CR LF. *)
Definition linesep_ok (linesep : str) : Prop :=
  linesep = [10%N] \/ linesep = [13%N; 10%N].

Definition not_cr (c : char) : bool := negb (N.eqb c 13).

(** The literals the replacement of a rule adds hold no CR. *)
Definition adds_no_cr (P : shape) : bool :=
  forallb not_cr (rhead P) && forallb not_cr (rtail P)
  && match rgap P with Some x => forallb not_cr x | None => true end.

(** * Properties *)

(** ** Lists *)

Lemma strip_prefix_spec (l s r : str) :
  strip_prefix l s = Some r <-> s = l ++ r.
Proof.
  revert s; induction l as [|x l IH]; intros s; simpl.
  - split; intros H; [injection H as ->; reflexivity | now subst].
  - destruct s as [|y s].
    + split; discriminate.
    + destruct (N.eqb_spec x y) as [->|Hxy].
      * rewrite IH. split; intros H; [now subst | now injection H].
      * split; [discriminate | intros H; injection H as H1 _; congruence].
Qed.

Lemma strip_prefix_app (l r : str) : strip_prefix l (l ++ r) = Some r.
Proof. now apply strip_prefix_spec. Qed.

Lemma str_eqb_spec (a b : str) : str_eqb a b = true <-> a = b.
Proof.
  revert b; induction a as [|x a IH]; intros [|y b]; simpl;
    try (split; (reflexivity || discriminate)).
  rewrite andb_true_iff, N.eqb_eq, IH.
  split; [intros [-> ->]; reflexivity | intros H; now injection H].
Qed.

(** ** The scan of [re.sub] *)

Section SubTheory.

Variable M : str -> option (nat * str).

Hypothesis M_pos : productive M.

Lemma M_nil : M [] = None.
Proof.
  destruct (M []) as [[n r]|] eqn:E; [|reflexivity].
  apply M_pos in E; simpl in E; lia.
Qed.

Lemma sub_from_skip (k : nat) (t : str) :
  k <= length t -> sub_from M k t = gsub M (skipn k t).
Proof.
  revert t; induction k as [|k IH]; intros t Hk; [reflexivity|].
  destruct t as [|c t]; simpl in Hk; [lia|].
  simpl. apply IH. lia.
Qed.

Lemma gsub_nil : gsub M [] = [].
Proof. unfold gsub; simpl. now rewrite M_nil. Qed.

Lemma gsub_miss (c : char) (t : str) :
  M (c :: t) = None -> gsub M (c :: t) = c :: gsub M t.
Proof. intros H. unfold gsub; simpl. now rewrite H. Qed.

Lemma gsub_hit (s : str) (n : nat) (r : str) :
  M s = Some (n, r) -> gsub M s = r ++ gsub M (skipn n s).
Proof.
  intros H. pose proof (M_pos _ _ _ H) as Hn.
  destruct s as [|c t]; [simpl in Hn; lia|].
  unfold gsub at 1; simpl. rewrite H.
  destruct n as [|n]; [lia|].
  simpl in Hn. rewrite sub_from_skip by lia. reflexivity.
Qed.

Lemma gsub_hit_app (m rest r : str) :
  M (m ++ rest) = Some (length m, r) ->
  gsub M (m ++ rest) = r ++ gsub M rest.
Proof.
  intros H. rewrite (gsub_hit _ _ _ H).
  now rewrite skipn_app, skipn_all, Nat.sub_diag.
Qed.

Lemma clean_tail (c : char) (t : str) : clean M (c :: t) -> clean M t.
Proof. intros H a b E. apply (H (c :: a) b). now rewrite E. Qed.

Lemma clean_app_r (a b : str) : clean M (a ++ b) -> clean M b.
Proof.
  intros H x y E. apply (H (a ++ x) y). now rewrite E, app_assoc.
Qed.

Lemma gsub_clean (s : str) : clean M s -> gsub M s = s.
Proof.
  induction s as [|c t IH]; intros H; [apply gsub_nil|].
  rewrite gsub_miss by (now apply (H [])).
  f_equal. apply IH. eapply clean_tail; eassumption.
Qed.

Lemma gsub_pass (w v : str) :
  nomatch_inside M w -> M (w ++ v) = None ->
  gsub M (w ++ v) = w ++ gsub M v.
Proof.
  induction w as [|c w IH]; intros Hin H0; [reflexivity|].
  simpl. rewrite gsub_miss by exact H0. f_equal.
  destruct w as [|d w]; [reflexivity|].
  apply IH.
  - intros w1 w2 x E H1 H2.
    apply (Hin (c :: w1) w2 x); [now rewrite E | discriminate | exact H2].
  - apply (Hin [c] (d :: w) v); [reflexivity | discriminate | discriminate].
Qed.

Lemma gsub_nocross (w v : str) :
  nocross M w ->
  forall u, gsub M (u ++ w ++ v) = gsub M u ++ gsub M (w ++ v).
Proof.
  intros Hw u.
  remember (length u) as k eqn:Hk.
  revert u Hk; induction k as [k IH] using lt_wf_ind; intros u Hk.
  destruct u as [|c u]; [now rewrite gsub_nil|].
  pose proof (Hw (c :: u) v ltac:(discriminate)) as E.
  destruct (M (c :: u)) as [[n r]|] eqn:Eu.
  - pose proof (M_pos _ _ _ Eu) as Hn.
    rewrite (gsub_hit _ _ _ E), (gsub_hit _ _ _ Eu).
    rewrite skipn_app.
    replace (n - length (c :: u)) with 0 by lia.
    rewrite skipn_O.
    rewrite (IH (length (skipn n (c :: u)))); [|rewrite length_skipn; lia|reflexivity].
    now rewrite app_assoc.
  - simpl. rewrite gsub_miss by exact E. rewrite gsub_miss by exact Eu.
    simpl. f_equal. apply (IH (length u)); [simpl in Hk; lia|reflexivity].
Qed.

(** A barrier M the pattern does not match at is copied, and the text on
    either side is substituted on its own. *)
Lemma gsub_factor (u w v : str) :
  barrier M w -> M (w ++ v) = None ->
  gsub M (u ++ w ++ v) = gsub M u ++ w ++ gsub M v.
Proof.
  intros [Hc Hi] H0. rewrite gsub_nocross by exact Hc.
  now rewrite gsub_pass.
Qed.

(** A barrier M the pattern matches as a whole is replaced. *)
Lemma gsub_rewrite (u w v r : str) :
  nocross M w -> M (w ++ v) = Some (length w, r) ->
  gsub M (u ++ w ++ v) = gsub M u ++ r ++ gsub M v.
Proof.
  intros Hc H0. rewrite gsub_nocross by exact Hc.
  now rewrite (gsub_hit_app _ _ _ H0).
Qed.

Lemma clean_nocross_l (u w v : str) :
  nocross M w -> clean M (u ++ w ++ v) -> clean M u.
Proof.
  intros Hc H a b E.
  destruct b as [|c b]; [apply M_nil|].
  rewrite <- (Hc (c :: b) v) by discriminate.
  apply (H a). rewrite E. now rewrite <- app_assoc.
Qed.

Lemma clean_join (u w v : str) :
  barrier M w -> clean M u -> M (w ++ v) = None -> clean M v ->
  clean M (u ++ w ++ v).
Proof.
  intros [Hc Hi] Hu H0 Hv a b E.
  symmetry in E. apply app_eq_app in E as [l [[E1 E2]|[E1 E2]]].
  - (* the suffix starts within [w ++ v] *)
    apply app_eq_app in E2 as [l' [[E3 E4]|[E3 E4]]].
    + subst b. destruct l' as [|c l']; [apply (Hv []); reflexivity|].
      destruct l as [|d l].
      * simpl in E3. subst w. exact H0.
      * apply (Hi (d :: l) (c :: l') v); [exact E3|discriminate|discriminate].
    + apply (Hv l'). exact E4.
  - (* the suffix starts within [u] *)
    subst b. destruct l as [|c l]; [exact H0|].
    rewrite Hc by discriminate. apply (Hu a). exact E1.
Qed.

End SubTheory.

(** ** One rule after another *)

Section Preservation.

Variables Mi Mj : str -> option (nat * str).
Hypothesis Mi_pos : productive Mi.
Hypothesis Mj_pos : productive Mj.
Hypothesis Hcompat : compat Mi Mj.

(** Substituting with [Mj] creates no match of [Mi]. *)
Lemma clean_preserved_gen (t : str) :
  forall u, clean Mi (u ++ t) -> clean Mi (u ++ gsub Mj t).
Proof.
  remember (length t) as k eqn:Hk.
  revert t Hk; induction k as [k IH] using lt_wf_ind; intros t Hk u H.
  destruct t as [|c t]; [now rewrite (gsub_nil Mj Mj_pos)|].
  destruct (Mj (c :: t)) as [[n r]|] eqn:E.
  - pose proof (Mj_pos _ _ _ E) as Hn.
    destruct (Hcompat _ _ _ E) as (Hm & Hr & H0).
    rewrite (gsub_hit Mj Mj_pos _ _ _ E).
    rewrite <- (firstn_skipn n (c :: t)) in H.
    apply (clean_join Mi); [exact Hr| | apply H0 |].
    + eapply (clean_nocross_l Mi Mi_pos); [apply Hm|exact H].
    + apply (IH (length (skipn n (c :: t)))) with (u := []);
        [rewrite length_skipn; lia|reflexivity|].
      simpl. apply clean_app_r in H. apply clean_app_r in H. exact H.
  - rewrite (gsub_miss Mj _ _ E).
    change (u ++ c :: gsub Mj t) with (u ++ [c] ++ gsub Mj t).
    rewrite app_assoc.
    apply (IH (length t)); [simpl in Hk; lia|reflexivity|].
    rewrite <- app_assoc. exact H.
Qed.

Lemma clean_preserved (s : str) : clean Mi s -> clean Mi (gsub Mj s).
Proof. intros H. now apply (clean_preserved_gen s []). Qed.

End Preservation.

Section SelfClean.

Variable M : str -> option (nat * str).
Hypothesis M_pos : productive M.
Hypothesis Hself : compat M M.

Lemma gsub_self_clean_gen (t : str) :
  forall u,
    (forall a b, u = a ++ b -> b <> [] -> M (b ++ t) = None) ->
    clean M (u ++ gsub M t).
Proof.
  remember (length t) as k eqn:Hk.
  revert t Hk; induction k as [k IH] using lt_wf_ind; intros t Hk u H.
  destruct t as [|c t].
  - rewrite (gsub_nil M M_pos). intros a b E.
    destruct b as [|d b]; [apply (M_nil M M_pos)|].
    rewrite app_nil_r in E.
    rewrite <- (app_nil_r (d :: b)). apply (H a); [exact E|discriminate].
  - destruct (M (c :: t)) as [[n r]|] eqn:E.
    + pose proof (M_pos _ _ _ E) as Hn.
      destruct (Hself _ _ _ E) as (Hm & Hr & H0).
      rewrite (gsub_hit M M_pos _ _ _ E).
      apply (clean_join M); [exact Hr| |apply H0|].
      * intros a b Eu.
        destruct b as [|d b]; [apply (M_nil M M_pos)|].
        rewrite <- (proj1 Hm (d :: b) (skipn n (c :: t))) by discriminate.
        rewrite firstn_skipn. apply (H a); [exact Eu|discriminate].
      * apply (IH (length (skipn n (c :: t)))) with (u := []);
          [rewrite length_skipn; lia|reflexivity|].
        intros a b Eab Hb. destruct a; destruct b; try discriminate.
        now elim Hb.
    + rewrite (gsub_miss M _ _ E).
      change (u ++ c :: gsub M t) with (u ++ [c] ++ gsub M t).
      rewrite app_assoc.
      apply (IH (length t)); [simpl in Hk; lia|reflexivity|].
      intros a b Eab Hb.
      destruct (exists_last Hb) as (b' & d & ->).
      rewrite app_assoc in Eab. apply app_inj_tail in Eab as [Eu ->].
      rewrite <- app_assoc. simpl.
      destruct b' as [|e b']; [exact E|].
      apply (H a); [exact Eu|discriminate].
Qed.

(** After the substitution the pattern matches nowhere. *)
Lemma gsub_self_clean (s : str) : clean M (gsub M s).
Proof.
  apply (gsub_self_clean_gen s []).
  intros a b E Hb. destruct a; destruct b; try discriminate. now elim Hb.
Qed.

End SelfClean.

(** ** Soundness of the criteria *)

Lemma clash_sound (a b : str) :
  clash a b = true -> forall x y, a ++ x <> b ++ y.
Proof.
  revert b; induction a as [|c a IH]; intros [|d b] H x y; simpl in H;
    try discriminate.
  destruct (N.eqb_spec c d) as [->|Hcd]; simpl; intros E; injection E.
  - now apply IH.
  - intros _ Hc. now apply Hcd.
Qed.

Lemma every_tail_spec (f : str -> bool) (l : str) :
  every_tail f l = true ->
  forall a b, l = a ++ b -> b <> [] -> f b = true.
Proof.
  induction l as [|c l IH]; intros H a b E Hb.
  - destruct a; destruct b; try discriminate. now elim Hb.
  - simpl in H. apply andb_true_iff in H as [H1 H2].
    destruct a as [|d a]; simpl in E.
    + now subst b.
    + injection E as _ E. now apply (IH H2 a b).
Qed.

Lemma every_tail_proper (f : str -> bool) (l : str) :
  every_tail f (tl l) = true ->
  forall a b, l = a ++ b -> a <> [] -> b <> [] -> f b = true.
Proof.
  intros H a b E Ha Hb. destruct a as [|c a]; [now elim Ha|].
  subst l. simpl in H. now apply (every_tail_spec f _ H a b).
Qed.

Lemma prefix_split (u z a b : str) :
  u ++ z = a ++ b ->
  (exists l, u = a ++ l /\ b = l ++ z)
  \/ (exists l, l <> [] /\ a = u ++ l /\ z = l ++ b).
Proof.
  intros E. apply app_eq_app in E as [l [[E1 E2]|[E1 E2]]].
  - left. now exists l.
  - destruct l as [|c l].
    + left. exists []. rewrite app_nil_r in *. simpl in E2. now subst.
    + right. exists (c :: l). repeat split; [discriminate|exact E1|exact E2].
Qed.

Lemma all_space_app (a b : str) :
  all_space (a ++ b) = true -> all_space a = true /\ all_space b = true.
Proof. unfold all_space. rewrite forallb_app. apply andb_true_iff. Qed.

Lemma space_meets_nonspace (a x p q : str) :
  all_space a = true -> a <> [] -> head_nonspace x = true ->
  a ++ p <> x ++ q.
Proof.
  intros Ha Hne Hx E. destruct a as [|c a]; [now elim Hne|].
  destruct x as [|d x]; [discriminate|].
  simpl in *. injection E as -> _.
  apply andb_true_iff in Ha as [Ha _]. rewrite Ha in Hx. discriminate.
Qed.

Lemma space_run_unique (a b x y p q : str) :
  all_space a = true -> all_space b = true ->
  head_nonspace x = true -> head_nonspace y = true ->
  a ++ x ++ p = b ++ y ++ q -> a = b /\ x ++ p = y ++ q.
Proof.
  revert b; induction a as [|c a IH]; intros [|d b] Ha Hb Hx Hy E.
  - now split.
  - exfalso. symmetry in E.
    now apply (space_meets_nonspace (d :: b) x (y ++ q) p) in E;
      [|exact Hb|discriminate|exact Hx].
  - exfalso.
    now apply (space_meets_nonspace (c :: a) y (x ++ p) q) in E;
      [|exact Ha|discriminate|exact Hy].
  - simpl in E. injection E as -> E.
    simpl in Ha, Hb. apply andb_true_iff in Ha as [_ Ha].
    apply andb_true_iff in Hb as [_ Hb].
    destruct (IH b Ha Hb Hx Hy E) as [-> E']. now split.
Qed.

Section ShapeTheory.

Variable M : str -> option (nat * str).
Variable P : shape.
Hypothesis HM : realizes M P.

Lemma ws_ok_space (ws : str) : ws_ok (gap P) ws -> all_space ws = true.
Proof.
  unfold ws_ok. destruct (gap P); [now intros [H _] | now intros ->].
Qed.

Lemma realizes_productive : pre P <> [] -> productive M.
Proof.
  intros Hpre s n r H.
  apply HM in H as (ws & rest & -> & _ & -> & _).
  unfold text. rewrite !length_app.
  destruct (pre P); [now elim Hpre|]. simpl. lia.
Qed.

Lemma realizes_ext (x y : str) (n : nat) (r : str) :
  M x = Some (n, r) -> M (x ++ y) = Some (n, r).
Proof.
  intros H. apply HM in H as (ws & rest & -> & Hws & -> & ->).
  apply HM. exists ws, (rest ++ y).
  repeat split; [|exact Hws]. now rewrite <- !app_assoc.
Qed.

Lemma shape_nocross (hd : str) :
  nocross_ok P hd = true -> forall y, nocross M (hd ++ y).
Proof.
  unfold nocross_ok. intros H y u v Hu.
  apply andb_true_iff in H as [H H3]. apply andb_true_iff in H as [H1 H2].
  destruct (M (u ++ (hd ++ y) ++ v)) as [[n r]|] eqn:E.
  - symmetry. apply HM in E as (ws & rest & Es & Hws & -> & ->).
    apply HM. exists ws.
    rewrite <- app_assoc in Es.
    apply prefix_split in Es as [(l & El & Es)|(l & Hl & El & Es)].
    2:{ exfalso. apply (clash_sound l hd) with (x := ws ++ post P ++ rest)
                                               (y := y ++ v).
        - now apply (every_tail_proper _ _ H2 u l).
        - now symmetry. }
    symmetry in Es.
    apply prefix_split in Es as [(l2 & El2 & Es)|(l2 & Hl2 & El2 & Es)].
    2:{ exfalso. apply ws_ok_space in Hws. rewrite El2 in Hws.
        apply all_space_app in Hws as [_ Hws].
        symmetry in Es.
        now apply (space_meets_nonspace l2 hd (post P ++ rest) (y ++ v))
          in Es. }
    symmetry in Es.
    apply prefix_split in Es as [(l3 & El3 & Es)|(l3 & Hl3 & El3 & Es)].
    2:{ exfalso. apply (clash_sound l3 hd) with (x := rest) (y := y ++ v).
        - now apply (every_tail_spec _ _ H3 l2 l3).
        - now symmetry. }
    exists l3. subst. repeat split. exact Hws.
  - destruct (M u) as [[n r]|] eqn:Eu; [|reflexivity].
    apply (realizes_ext _ ((hd ++ y) ++ v)) in Eu. congruence.
Qed.

Lemma shape_inside (hd ws tl' : str) :
  inside_ok P hd tl' = true -> all_space ws = true ->
  nomatch_inside M (hd ++ ws ++ tl').
Proof.
  unfold inside_ok. intros H Hws w1 w2 v E Hw1 Hw2.
  apply andb_true_iff in H as [H H3]. apply andb_true_iff in H as [H1 H2].
  destruct (M (w2 ++ v)) as [[n r]|] eqn:EM; [|reflexivity].
  exfalso. apply HM in EM as (ws' & rest & Es & _).
  symmetry in E.
  apply prefix_split in E as [(l & El & E)|(l & Hl & El & E)].
  - apply prefix_split in E as [(l2 & El2 & E)|(l2 & Hl2 & El2 & E)].
    + destruct l2 as [|c l2].
      * simpl in E. subst w2.
        apply (clash_sound (pre P) tl') with (x := ws' ++ post P ++ rest)
                                              (y := v).
        -- now apply (every_tail_spec _ _ H3 [] tl').
        -- now symmetry.
      * subst w2. rewrite El2 in Hws.
        apply all_space_app in Hws as [_ Hws].
        rewrite <- app_assoc in Es.
        now apply (space_meets_nonspace (c :: l2) (pre P) (tl' ++ v)
                     (ws' ++ post P ++ rest)) in Es.
    + apply (clash_sound (pre P) w2) with (x := ws' ++ post P ++ rest)
                                           (y := v).
      * now apply (every_tail_spec _ _ H3 l2 w2).
      * now symmetry.
  - subst w2. rewrite <- app_assoc in Es.
    apply (clash_sound (pre P) l) with (x := ws' ++ post P ++ rest)
                                        (y := (ws ++ tl') ++ v).
    + now apply (every_tail_proper _ _ H1 w1 l).
    + now symmetry.
Qed.

Lemma shape_head (hd ws tl' : str) :
  head_ok P hd tl' = true -> all_space ws = true ->
  forall v, M (hd ++ ws ++ tl' ++ v) = None.
Proof.
  unfold head_ok. intros H Hws v.
  destruct (M (hd ++ ws ++ tl' ++ v)) as [[n r]|] eqn:EM; [|reflexivity].
  exfalso. apply HM in EM as (ws' & rest & Es & Hws' & _).
  apply orb_true_iff in H as [H|H].
  - symmetry in Es. now apply (clash_sound _ _ H) in Es.
  - repeat (apply andb_true_iff in H as [H ?]).
    apply str_eqb_spec in H. rewrite H in Es.
    apply app_inv_head in Es.
    apply ws_ok_space in Hws'.
    apply space_run_unique in Es as [_ Es]; try assumption.
    symmetry in Es. now apply (clash_sound (post P) tl') in Es.
Qed.

End ShapeTheory.

(** ** What the patterns of the script match *)

Lemma span_space_run (ws x : str) :
  all_space ws = true -> head_nonspace x = true ->
  span_space (ws ++ x) = length ws.
Proof.
  induction ws as [|c ws IH]; simpl; intros Hws Hx.
  - destruct x as [|d x]; [discriminate|]. simpl in *.
    now destruct (is_space d).
  - apply andb_true_iff in Hws as [Hc Hws]. rewrite Hc. f_equal. now apply IH.
Qed.

Lemma span_space_firstn (s : str) :
  all_space (firstn (span_space s) s) = true.
Proof.
  induction s as [|c s IH]; [reflexivity|]. simpl.
  destruct (is_space c) eqn:Hc; [|reflexivity]. simpl. now rewrite Hc.
Qed.

Lemma skipn_in_span (s : str) (k : nat) :
  k < span_space s -> exists c t, skipn k s = c :: t /\ is_space c = true.
Proof.
  revert k; induction s as [|c s IH]; simpl; intros k Hk; [lia|].
  destruct (is_space c) eqn:Hc; [|lia].
  destruct k as [|k]; [now exists c, s|].
  apply IH. lia.
Qed.

Lemma backtrack_eq (cont : str -> option (list str * str)) (s : str)
      (min k : nat) :
  backtrack cont s min k =
    if k <? min then None
    else match cont (skipn k s) with
         | Some (ps, r) => Some (firstn k s :: ps, r)
         | None => match k with
                   | 0 => None
                   | S k' => backtrack cont s min k'
                   end
         end.
Proof. destruct k; reflexivity. Qed.

Lemma backtrack_rigid (cont : str -> option (list str * str)) (s : str)
      (min k : nat) :
  rigid cont -> k < span_space s -> backtrack cont s min k = None.
Proof.
  intros Hr. induction k as [|k IH]; intros Hk; rewrite backtrack_eq.
  - destruct (0 <? min); [reflexivity|].
    destruct (skipn_in_span s 0 Hk) as (c & t & E & Hc).
    rewrite E. now rewrite Hr.
  - destruct (S k <? min); [reflexivity|].
    destruct (skipn_in_span s (S k) Hk) as (c & t & E & Hc).
    rewrite E, Hr by exact Hc. apply IH. lia.
Qed.

Lemma backtrack_top (cont : str -> option (list str * str)) (s : str)
      (min : nat) :
  rigid cont ->
  backtrack cont s min (span_space s) =
    if span_space s <? min then None
    else match cont (skipn (span_space s) s) with
         | Some (ps, r) => Some (firstn (span_space s) s :: ps, r)
         | None => None
         end.
Proof.
  intros Hr. rewrite backtrack_eq.
  destruct (span_space s <? min); [reflexivity|].
  destruct (cont (skipn (span_space s) s)) as [[ps r]|]; [reflexivity|].
  destruct (span_space s) as [|k] eqn:Ek; [reflexivity|].
  apply backtrack_rigid; [exact Hr|lia].
Qed.

Lemma lit_rigid (g : option nat) (b : str) :
  head_nonspace b = true -> rigid (match_here [(g, Lit b)]).
Proof.
  intros Hb c t Hc. destruct b as [|d b]; [discriminate|]. simpl in *.
  destruct (N.eqb_spec d c) as [->|_]; [|reflexivity].
  rewrite Hc in Hb. discriminate.
Qed.

Lemma match_lit (g : option nat) (a s : str) (ps : list str) (rest : str) :
  match_here [(g, Lit a)] s = Some (ps, rest) <->
  ps = [a] /\ s = a ++ rest.
Proof.
  simpl. destruct (strip_prefix a s) as [s'|] eqn:E.
  - apply strip_prefix_spec in E. split.
    + intros H. injection H as <- <-. now split.
    + intros [-> H]. rewrite H in E. apply app_inv_head in E. now subst.
  - split; [discriminate|]. intros [_ H]. subst s.
    rewrite strip_prefix_app in E. discriminate.
Qed.

Lemma match_lit_lit (g1 g2 : option nat) (a b s : str) (ps : list str)
      (rest : str) :
  match_here [(g1, Lit a); (g2, Lit b)] s = Some (ps, rest) <->
  ps = [a; b] /\ s = a ++ b ++ rest.
Proof.
  change (match_here [(g1, Lit a); (g2, Lit b)] s)
    with (match strip_prefix a s with
          | Some s' => match match_here [(g2, Lit b)] s' with
                       | Some (ps, r) => Some (a :: ps, r)
                       | None => None
                       end
          | None => None
          end).
  destruct (strip_prefix a s) as [s'|] eqn:E.
  - apply strip_prefix_spec in E. subst s.
    destruct (match_here [(g2, Lit b)] s') as [[ps' r]|] eqn:E2.
    + apply match_lit in E2 as [-> ->]. split.
      * intros H. injection H as <- <-. now split.
      * intros [-> H]. apply app_inv_head, app_inv_head in H. now subst.
    + split; [discriminate|]. intros [_ H]. apply app_inv_head in H.
      subst s'. assert (Hm : match_here [(g2, Lit b)] (b ++ rest)
                             = Some ([b], rest)) by now apply match_lit.
      congruence.
  - split; [discriminate|]. intros [_ H]. subst s.
    rewrite strip_prefix_app in E. discriminate.
Qed.

Lemma match_ws_lit (g2 g3 : option nat) (m : nat) (b s : str)
      (ps : list str) (rest : str) :
  head_nonspace b = true ->
  (match_here [(g2, Ws m); (g3, Lit b)] s = Some (ps, rest) <->
   exists ws, ps = [ws; b] /\ s = ws ++ b ++ rest
              /\ all_space ws = true /\ m <= length ws).
Proof.
  intros Hb.
  change (match_here [(g2, Ws m); (g3, Lit b)] s)
    with (backtrack (match_here [(g3, Lit b)]) s m (span_space s)).
  rewrite backtrack_top by now apply lit_rigid.
  split.
  - destruct (Nat.ltb_spec (span_space s) m) as [|Hm]; [discriminate|].
    destruct (match_here [(g3, Lit b)] (skipn (span_space s) s))
      as [[ps' r]|] eqn:E; [|discriminate].
    apply match_lit in E as [-> E]. intros H. injection H as <- <-.
    exists (firstn (span_space s) s). repeat split.
    + rewrite <- E. now rewrite firstn_skipn.
    + apply span_space_firstn.
    + rewrite length_firstn.
      assert (span_space s <= length s).
      { clear. induction s as [|c s IH]; simpl; [lia|].
        destruct (is_space c); lia. }
      lia.
  - intros (ws & -> & -> & Hws & Hm).
    assert (Hx : head_nonspace (b ++ rest) = true)
      by (destruct b; [discriminate|exact Hb]).
    rewrite (span_space_run ws (b ++ rest) Hws Hx).
    destruct (Nat.ltb_spec (length ws) m) as [|_]; [lia|].
    rewrite skipn_app, skipn_all, Nat.sub_diag. simpl.
    rewrite strip_prefix_app.
    now rewrite firstn_app, firstn_all, Nat.sub_diag, app_nil_r.
Qed.

Lemma match_lit_ws_lit (g1 g2 g3 : option nat) (a : str) (m : nat)
      (b s : str) (ps : list str) (rest : str) :
  head_nonspace b = true ->
  (match_here [(g1, Lit a); (g2, Ws m); (g3, Lit b)] s = Some (ps, rest) <->
   exists ws, ps = [a; ws; b] /\ s = a ++ ws ++ b ++ rest
              /\ all_space ws = true /\ m <= length ws).
Proof.
  intros Hb.
  change (match_here [(g1, Lit a); (g2, Ws m); (g3, Lit b)] s)
    with (match strip_prefix a s with
          | Some s' => match match_here [(g2, Ws m); (g3, Lit b)] s' with
                       | Some (ps, r) => Some (a :: ps, r)
                       | None => None
                       end
          | None => None
          end).
  destruct (strip_prefix a s) as [s'|] eqn:E.
  - apply strip_prefix_spec in E. subst s.
    destruct (match_here [(g2, Ws m); (g3, Lit b)] s') as [[ps' r]|] eqn:E2.
    + apply (match_ws_lit g2 g3 m b s' ps' r Hb) in E2
        as (ws & -> & -> & Hws & Hm).
      split.
      * intros H. injection H as <- <-. now exists ws.
      * intros (ws' & -> & H & Hws' & Hm'). apply app_inv_head in H.
        assert (Hx : head_nonspace b = true) by exact Hb.
        apply space_run_unique in H as [-> H]; try assumption.
        apply app_inv_head in H. now subst.
    + split; [discriminate|]. intros (ws & _ & H & Hws & Hm).
      apply app_inv_head in H. subst s'.
      assert (Hex : match_here [(g2, Ws m); (g3, Lit b)] (ws ++ b ++ rest)
                    = Some ([ws; b], rest)).
      { apply (match_ws_lit g2 g3 m b _ _ _ Hb). now exists ws. }
      congruence.
  - split; [discriminate|]. intros (ws & _ & H & _). subst s.
    rewrite strip_prefix_app in E. discriminate.
Qed.

Lemma realizes_intro (p : pattern) (t : template) (P : shape)
      (pieces : str -> list str) :
  (forall s ps rest,
      match_here p s = Some (ps, rest) <->
      exists ws, ps = pieces ws /\ s = pre P ++ ws ++ post P ++ rest
                 /\ ws_ok (gap P) ws) ->
  (forall ws, ws_ok (gap P) ws ->
              length (concat (pieces ws)) = length (text P ws)) ->
  (forall ws, ws_ok (gap P) ws -> expand t p (pieces ws) = fill P ws) ->
  realizes (matcher p t) P.
Proof.
  intros Hm Hl He s n r. unfold matcher.
  destruct (match_here p s) as [[ps rest]|] eqn:E.
  - split.
    + apply Hm in E as (ws & -> & -> & Hws).
      intros H. injection H as <- <-. exists ws, rest.
      now rewrite Hl, He by exact Hws.
    + intros (ws & rest' & Es & Hws & -> & ->).
      assert (E' : match_here p s = Some (pieces ws, rest'))
        by (apply Hm; now exists ws).
      rewrite E in E'. injection E' as -> _.
      now rewrite Hl, He by exact Hws.
  - split; [discriminate|].
    intros (ws & rest & Es & Hws & _).
    assert (E' : match_here p s = Some (pieces ws, rest))
      by (apply Hm; now exists ws).
    congruence.
Qed.

(** A literal pattern and a literal replacement (rules 2 and 8). *)
Lemma realizes_lit (a b : str) :
  realizes (matcher [(None, Lit a)] [RLit b])
           {| pre := a; gap := None; post := [];
              rhead := b; rgap := None; rtail := [] |}.
Proof.
  apply realizes_intro with (pieces := fun _ => [a]).
  - intros s ps rest. rewrite match_lit. simpl. split.
    + intros [-> ->]. now exists [].
    + intros (ws & -> & -> & ->). now split.
  - intros ws ->. unfold text. simpl. now rewrite !length_app.
  - intros ws ->. unfold fill. simpl. now rewrite !app_nil_r.
Qed.

(** A group, a literal, and the group copied before a new literal
    (rules 5 and 6). *)
Lemma realizes_group_lit (a b c : str) :
  realizes (matcher [(Some 1, Lit a); (None, Lit b)] [RGroup 1; RLit c])
           {| pre := a ++ b; gap := None; post := [];
              rhead := a ++ c; rgap := None; rtail := [] |}.
Proof.
  apply realizes_intro with (pieces := fun _ => [a; b]).
  - intros s ps rest. rewrite match_lit_lit. simpl. split.
    + intros [-> ->]. exists []. now rewrite <- app_assoc.
    + intros (ws & -> & -> & ->). now rewrite <- app_assoc.
  - intros ws ->. unfold text. simpl. rewrite !length_app. simpl. lia.
  - intros ws ->. unfold fill. simpl. now rewrite ?app_nil_r, <- ?app_assoc.
Qed.

(** A literal, then a group of white space and a literal, copied after a
    new literal (rules 1 and 4). *)
Lemma realizes_gap_copy (a : str) (m : nat) (b a' : str) :
  head_nonspace b = true ->
  realizes (matcher [(None, Lit a); (Some 1, Ws m); (Some 1, Lit b)]
                    [RLit a'; RGroup 1])
           {| pre := a; gap := Some m; post := b;
              rhead := a'; rgap := None; rtail := b |}.
Proof.
  intros Hb. apply realizes_intro with (pieces := fun ws => [a; ws; b]).
  - intros s ps rest. rewrite (match_lit_ws_lit _ _ _ _ _ _ _ _ _ Hb). simpl.
    split.
    + intros (ws & -> & -> & H). now exists ws.
    + intros (ws & -> & -> & H). now exists ws.
  - intros ws _. unfold text. simpl. rewrite !length_app. simpl. lia.
  - intros ws _. unfold fill. simpl. now rewrite !app_nil_r.
Qed.

(** A group, white space, a second group; the first group copied before a
    literal that starts with a fixed run of white space (rule 3). *)
Lemma realizes_gap_fixed (a : str) (m : nat) (b x y : str) :
  head_nonspace b = true ->
  realizes (matcher [(Some 1, Lit a); (None, Ws m); (Some 2, Lit b)]
                    [RGroup 1; RLit (x ++ y)])
           {| pre := a; gap := Some m; post := b;
              rhead := a; rgap := Some x; rtail := y |}.
Proof.
  intros Hb. apply realizes_intro with (pieces := fun ws => [a; ws; b]).
  - intros s ps rest. rewrite (match_lit_ws_lit _ _ _ _ _ _ _ _ _ Hb). simpl.
    split.
    + intros (ws & -> & -> & H). now exists ws.
    + intros (ws & -> & -> & H). now exists ws.
  - intros ws _. unfold text. simpl. rewrite !length_app. simpl. lia.
  - intros ws _. unfold fill. simpl. now rewrite !app_nil_r.
Qed.

Lemma table_rules : map fst table = rules.
Proof. reflexivity. Qed.

Lemma table_realizes :
  Forall (fun rs => realizes (Mof (fst rs)) (snd rs)) table.
Proof.
  unfold table.
  repeat (apply Forall_cons; [|]); [..|apply Forall_nil].
  - apply (realizes_gap_copy td13 0 top_border_comment td20). reflexivity.
  - apply (realizes_lit div13 div20).
  - apply (realizes_gap_fixed letter_spacing 1 border_bottom13
                              (sp ++ sp) border_bottom20). reflexivity.
  - apply (realizes_gap_copy td13 0 div_font_family td20). reflexivity.
  - apply (realizes_group_lit text_align_right margin_bottom13
                              margin_bottom20).
  - apply (realizes_group_lit text_align_right padding_bottom10
                              padding_bottom20).
  - apply (realizes_lit td24 td20).
Qed.

(** ** The rules do not interfere *)

Lemma firstn_text (P : shape) (ws rest : str) :
  firstn (length (text P ws)) (pre P ++ ws ++ post P ++ rest) = text P ws.
Proof.
  replace (pre P ++ ws ++ post P ++ rest) with (text P ws ++ rest)
    by (unfold text; now rewrite <- !app_assoc).
  now rewrite firstn_app, firstn_all, Nat.sub_diag, app_nil_r.
Qed.

Lemma compat_of_pair (Mi Mj : str -> option (nat * str)) (Pi Pj : shape) :
  realizes Mi Pi -> realizes Mj Pj -> pair_ok Pi Pj = true -> compat Mi Mj.
Proof.
  intros Hi Hj Hok s n r H.
  apply Hj in H as (ws & rest & -> & Hws & -> & ->).
  apply (ws_ok_space Pj) in Hws.
  unfold pair_ok in Hok.
  do 5 (apply andb_true_iff in Hok as [Hok ?]).
  rewrite firstn_text.
  assert (Hg : all_space match rgap Pj with None => ws | Some x => x end
               = true) by (destruct (rgap Pj); assumption).
  repeat split.
  - apply (shape_nocross _ _ Hi); assumption.
  - apply (shape_inside _ _ Hi); assumption.
  - apply (shape_nocross _ _ Hi); assumption.
  - apply (shape_inside _ _ Hi); assumption.
  - intros v. unfold fill. rewrite <- !app_assoc.
    apply (shape_head _ _ Hi); assumption.
Qed.

Lemma table_pairs :
  forallb (fun a => forallb (fun b => pair_ok (snd a) (snd b)) table) table
  = true.
Proof. vm_compute. reflexivity. Qed.

Lemma table_shape (r : rule) :
  In r rules -> exists P, In (r, P) table /\ realizes (Mof r) P.
Proof.
  rewrite <- table_rules. intros H. apply in_map_iff in H as ([r' P] & <- & H).
  exists P. split; [exact H|].
  exact (proj1 (Forall_forall _ _) table_realizes _ H).
Qed.

Lemma rules_compat (ri rj : rule) :
  In ri rules -> In rj rules -> compat (Mof ri) (Mof rj).
Proof.
  intros Hi Hj.
  destruct (table_shape ri Hi) as (Pi & Ti & Ri).
  destruct (table_shape rj Hj) as (Pj & Tj & Rj).
  apply (compat_of_pair _ _ _ _ Ri Rj).
  pose proof table_pairs as H.
  rewrite forallb_forall in H. specialize (H _ Ti).
  rewrite forallb_forall in H. exact (H _ Tj).
Qed.

Lemma table_pre :
  forallb (fun a => head_nonspace (pre (snd a))) table = true.
Proof. vm_compute. reflexivity. Qed.

Lemma rules_productive (r : rule) : In r rules -> productive (Mof r).
Proof.
  intros Hr. destruct (table_shape r Hr) as (P & T & R).
  apply (realizes_productive _ _ R).
  pose proof table_pre as H. rewrite forallb_forall in H.
  specialize (H _ T). simpl in H. now destruct (pre P).
Qed.

Lemma run_cons (r : rule) (rs : list rule) (c : str) :
  run (r :: rs) c = run rs (gsub (Mof r) c).
Proof. reflexivity. Qed.

Lemma run_clean (rs : list rule) :
  forall (done : list rule) (c : str),
    incl rs rules -> incl done rules ->
    (forall r, In r done -> clean (Mof r) c) ->
    forall r, In r done \/ In r rs -> clean (Mof r) (run rs c).
Proof.
  induction rs as [|r0 rs IH]; intros done c Hrs Hdone Hc r Hr.
  - destruct Hr as [Hr|[]]. now apply Hc.
  - rewrite run_cons.
    assert (H0 : In r0 rules) by (apply Hrs; now left).
    apply (IH (r0 :: done)).
    + intros x Hx. apply Hrs. now right.
    + intros x [<-|Hx]; [exact H0|now apply Hdone].
    + intros x [<-|Hx].
      * apply gsub_self_clean;
          [now apply rules_productive|now apply rules_compat].
      * apply clean_preserved.
        -- apply rules_productive. now apply Hdone.
        -- now apply rules_productive.
        -- apply rules_compat; [now apply Hdone|exact H0].
        -- now apply Hc.
    + destruct Hr as [Hr|[<-|Hr]]; [left; now right|left; now left|now right].
Qed.

Lemma run_id (rs : list rule) (c : str) :
  incl rs rules -> (forall r, In r rs -> clean (Mof r) c) -> run rs c = c.
Proof.
  induction rs as [|r0 rs IH]; intros Hrs Hc; [reflexivity|].
  rewrite run_cons. rewrite gsub_clean.
  - apply IH; [intros x Hx; apply Hrs; now right|].
    intros r Hr. apply Hc. now right.
  - apply rules_productive. apply Hrs. now left.
  - apply Hc. now left.
Qed.

Lemma substitute_clean (c : str) (r : rule) :
  In r rules -> clean (Mof r) (substitute c).
Proof.
  intros Hr. apply (run_clean rules [] c).
  - apply incl_refl.
  - intros x [].
  - intros x [].
  - now right.
Qed.

Lemma str_eqb_refl (a : str) : str_eqb a a = true.
Proof. now apply str_eqb_spec. Qed.

Lemma Mof_none (r : rule) (s : str) :
  Mof r s = None <-> match_here (pat r) s = None.
Proof.
  unfold Mof, matcher.
  destruct (match_here (pat r) s) as [[ps rest]|]; split;
    (reflexivity || discriminate).
Qed.

Lemma occurs_clean (r : rule) (s : str) :
  occurs (pat r) s = false <-> clean (Mof r) s.
Proof.
  induction s as [|c s IH]; simpl.
  - destruct (match_here (pat r) []) as [[ps rest]|] eqn:E.
    + split; [discriminate|]. intros H. specialize (H [] [] eq_refl).
      apply Mof_none in H. congruence.
    + split; [|reflexivity]. intros _ a b Eab.
      destruct a; destruct b; try discriminate. now apply Mof_none.
  - destruct (match_here (pat r) (c :: s)) as [[ps rest]|] eqn:E.
    + split; [discriminate|]. intros H. specialize (H [] (c :: s) eq_refl).
      apply Mof_none in H. congruence.
    + rewrite IH. split.
      * intros H a b Eab. destruct a as [|d a]; simpl in Eab.
        -- subst b. now apply Mof_none.
        -- injection Eab as _ Eab. now apply (H a).
      * intros H a b Eab. apply (H (c :: a)). now rewrite Eab.
Qed.

(** ** Idempotence *)

Lemma substitute_fixpoint (c : str) : substitute (substitute c) = substitute c.
Proof.
  change (run rules (substitute c) = substitute c).
  apply run_id; [apply incl_refl|].
  intros r Hr. now apply substitute_clean.
Qed.

(** C1: normalising the output of [normalize] changes nothing: the second
    pass returns the same content with [changed == false]. *)
Theorem normalize_idempotent (c : str) :
  normalize (fst (normalize c)) = (fst (normalize c), false).
Proof.
  unfold normalize, fst.
  now rewrite substitute_fixpoint, str_eqb_refl.
Qed.

(** C2, as stated, fails: the [td] with [padding-top: 24px;] contains none
    of the six patterns and is changed all the same. *)
Lemma six_patterns_not_enough :
  ~ (contains_none six_patterns td24 = true ->
     normalize td24 = (td24, false)).
Proof.
  intros H. specialize (H ltac:(vm_compute; reflexivity)).
  vm_compute in H. discriminate.
Qed.

(** C2, amended: content in which none of the seven patterns of the script
    occurs is returned as it is, with [changed == false]. *)
Theorem normalize_no_pattern (c : str) :
  contains_none rules c = true -> normalize c = (c, false).
Proof.
  intros H. unfold contains_none in H. rewrite forallb_forall in H.
  assert (E : substitute c = c).
  { change (run rules c = c). apply run_id; [apply incl_refl|].
    intros r Hr. apply occurs_clean. specialize (H r Hr).
    now destruct (occurs (pat r) c). }
  unfold normalize. now rewrite E, str_eqb_refl.
Qed.

Lemma normalize_no_pattern_witness :
  contains_none rules (lit "<p>13px</p>") = true
  /\ normalize (lit "<p>13px</p>") = (lit "<p>13px</p>", false).
Proof.
  split.
  - vm_compute. reflexivity.
  - apply (normalize_no_pattern (lit "<p>13px</p>")). vm_compute. reflexivity.
Defined.

(** ** A matched fragment through the whole script *)

Lemma run_app (a b : list rule) (c : str) : run (a ++ b) c = run b (run a c).
Proof. apply fold_left_app. Qed.

Lemma run_factor (rs : list rule) (w : str) :
  incl rs rules ->
  (forall r, In r rs -> barrier (Mof r) w /\ forall v, Mof r (w ++ v) = None) ->
  forall u v, run rs (u ++ w ++ v) = run rs u ++ w ++ run rs v.
Proof.
  induction rs as [|r0 rs IH]; intros Hrs Hw u v; [reflexivity|].
  rewrite !run_cons.
  destruct (Hw r0 (or_introl eq_refl)) as [Hb H0].
  rewrite gsub_factor;
    [|apply rules_productive, Hrs; now left|exact Hb|apply H0].
  apply IH.
  - intros x Hx. apply Hrs. now right.
  - intros x Hx. apply Hw. now right.
Qed.

Lemma realizes_hit (M : str -> option (nat * str)) (P : shape)
      (ws v : str) :
  realizes M P -> ws_ok (gap P) ws ->
  M (text P ws ++ v) = Some (length (text P ws), fill P ws).
Proof.
  intros HM Hws. apply HM. exists ws, v. repeat split; [|exact Hws].
  unfold text. now rewrite <- !app_assoc.
Qed.

Lemma head_clear (M : str -> option (nat * str)) (Pi Pj : shape)
      (ws v : str) :
  realizes M Pi -> head_ok Pi (pre Pj) (post Pj) = true ->
  ws_ok (gap Pj) ws -> M (text Pj ws ++ v) = None.
Proof.
  intros HM Hok Hws. unfold text. rewrite <- !app_assoc.
  apply (shape_head _ _ HM); [exact Hok|].
  now apply (ws_ok_space Pj).
Qed.

(** Rule [rj] rewrites every fragment it matches; the rules before it and
    after it leave the fragment alone, and the text on either side goes
    through the script on its own. *)
Lemma fragment_rewritten (before after : list rule) (rj : rule) (Pj : shape)
      (ws u v : str) :
  rules = before ++ rj :: after ->
  realizes (Mof rj) Pj ->
  (forall ri x, In ri before -> Mof ri (text Pj ws ++ x) = None) ->
  ws_ok (gap Pj) ws ->
  substitute (u ++ text Pj ws ++ v)
  = substitute u ++ fill Pj ws ++ substitute v.
Proof.
  intros Hsplit Hj Hbefore Hws.
  assert (Hin : forall r, In r (before ++ rj :: after) -> In r rules)
    by (intros r Hr; now rewrite Hsplit).
  assert (Hrj : In rj rules) by (apply Hin, in_elt).
  change substitute with (run rules). rewrite Hsplit.
  change (before ++ rj :: after) with (before ++ [rj] ++ after).
  rewrite !run_app.
  rewrite (run_factor before (text Pj ws)).
  - change (run [rj] ?x) with (gsub (Mof rj) x).
    rewrite (gsub_rewrite (Mof rj) (rules_productive _ Hrj) _ _ _
                          (fill Pj ws)).
    + apply run_factor.
      * intros r Hr. apply Hin. apply in_or_app. right. now right.
      * intros r Hr.
        assert (Hr' : In r rules)
          by (apply Hin, in_or_app; right; now right).
        destruct (rules_compat r rj Hr' Hrj _ _ _
                    (realizes_hit _ _ ws [] Hj Hws)) as (_ & Hb & H0).
        now split.
    + destruct (rules_compat rj rj Hrj Hrj _ _ _
                  (realizes_hit _ _ ws [] Hj Hws)) as ([Hc _] & _).
      rewrite app_nil_r, firstn_all in Hc. exact Hc.
    + now apply realizes_hit.
  - intros r Hr. apply Hin, in_or_app. now left.
  - intros r Hr. split; [|intros x; now apply Hbefore].
    assert (Hr' : In r rules) by (apply Hin, in_or_app; now left).
    destruct (rules_compat r rj Hr' Hrj _ _ _
                (realizes_hit _ _ ws [] Hj Hws)) as (Hb & _).
    rewrite app_nil_r, firstn_all in Hb. exact Hb.
Qed.

Lemma realizes_rule (r : rule) (P : shape) :
  In (r, P) table -> realizes (Mof r) P.
Proof.
  intros H. exact (proj1 (Forall_forall _ _) table_realizes _ H).
Qed.

(** C4: a [td] with [padding-top: 13px;] followed, possibly after white
    space, by the comment [<!-- Top border above subject -->] comes out
    with [padding-top: 20px;], the white space and the comment as they
    were; the content before and after it is normalised on its own. *)
Theorem top_border_td_rewritten (u ws v : str) :
  all_space ws = true ->
  fst (normalize (u ++ td13 ++ ws ++ top_border_comment ++ v))
  = fst (normalize u) ++ td20 ++ ws ++ top_border_comment
      ++ fst (normalize v).
Proof.
  intros Hws. unfold normalize, fst.
  pose proof (fragment_rewritten [] [rule2; rule3; rule4; rule5; rule6; rule8]
                rule1 shape1 ws u v eq_refl) as H.
  unfold text, fill in H. simpl pre in H. simpl post in H.
  simpl rhead in H. simpl rgap in H. simpl rtail in H. cbv iota in H.
  rewrite <- !app_assoc in H. apply H.
  - apply realizes_rule. now left.
  - intros ri x [].
  - split; [exact Hws|apply Nat.le_0_l].
Qed.

Lemma top_border_td_rewritten_witness :
  all_space (nl ++ sp ++ sp) = true
  /\ fst (normalize (lit "<tr>" ++ td13 ++ (nl ++ sp ++ sp)
                       ++ top_border_comment ++ lit "</td>"))
     = fst (normalize (lit "<tr>")) ++ td20 ++ (nl ++ sp ++ sp)
         ++ top_border_comment ++ fst (normalize (lit "</td>")).
Proof.
  split; [reflexivity|].
  apply (top_border_td_rewritten (lit "<tr>") (nl ++ sp ++ sp) (lit "</td>")).
  reflexivity.
Defined.

(** C5: the separator [div] with [margin-bottom: 13px;] comes out with
    [margin-bottom: 20px;] and is otherwise unchanged, [border-top]
    included; the content before and after it is normalised on its own. *)
Theorem separator_div_rewritten (u v : str) :
  fst (normalize (u ++ div13 ++ v))
  = fst (normalize u) ++ div20 ++ fst (normalize v).
Proof.
  unfold normalize, fst.
  pose proof (fragment_rewritten [rule1] [rule3; rule4; rule5; rule6; rule8]
                rule2 shape2 [] u v eq_refl) as H.
  unfold text, fill in H. simpl pre in H. simpl post in H.
  simpl rhead in H. simpl rgap in H. simpl rtail in H. cbv iota in H.
  rewrite !app_nil_r in H. simpl app in H. apply H.
  - apply realizes_rule. right. now left.
  - intros ri x [<-|[]].
    apply (head_clear _ shape1 shape2 [] x);
      [apply realizes_rule; now left|reflexivity|reflexivity].
  - reflexivity.
Qed.

(** C9: the script has a seventh substitution: every [td] with
    [padding-top: 24px;] comes out with [padding-top: 20px;], whatever
    stands before and after it, and none is left in the output. *)
Theorem td24_rewritten :
  (forall u v : str,
      fst (normalize (u ++ td24 ++ v))
      = fst (normalize u) ++ td20 ++ fst (normalize v))
  /\ (forall c : str, occurs (pat rule8) (fst (normalize c)) = false).
Proof.
  split.
  - intros u v. unfold normalize, fst.
    pose proof (fragment_rewritten
                  [rule1; rule2; rule3; rule4; rule5; rule6] []
                  rule8 shape8 [] u v eq_refl) as H.
    unfold text, fill in H. simpl pre in H. simpl post in H.
    simpl rhead in H. simpl rgap in H. simpl rtail in H. cbv iota in H.
    rewrite !app_nil_r in H. simpl app in H. apply H.
    + apply realizes_rule. do 6 right. now left.
    + intros ri x Hri.
      repeat (destruct Hri as [<-|Hri]); [..|destruct Hri].
      * apply (head_clear _ shape1 shape8 [] x);
          [apply realizes_rule; now left|reflexivity|reflexivity].
      * apply (head_clear _ shape2 shape8 [] x);
          [apply realizes_rule; do 1 right; now left|reflexivity|reflexivity].
      * apply (head_clear _ shape3 shape8 [] x);
          [apply realizes_rule; do 2 right; now left|reflexivity|reflexivity].
      * apply (head_clear _ shape4 shape8 [] x);
          [apply realizes_rule; do 3 right; now left|reflexivity|reflexivity].
      * apply (head_clear _ shape5 shape8 [] x);
          [apply realizes_rule; do 4 right; now left|reflexivity|reflexivity].
      * apply (head_clear _ shape6 shape8 [] x);
          [apply realizes_rule; do 5 right; now left|reflexivity|reflexivity].
    + reflexivity.
  - intros c. apply occurs_clean. unfold normalize, fst.
    apply substitute_clean. do 6 right. now left.
Qed.

(** C10: one call of [re.sub] rewrites every occurrence of its pattern, not
    only the first: however many fragments the rule matches, one pass
    replaces each of them. *)
Theorem every_occurrence_rewritten (r : rule) (P : shape)
        (frags : list (str * str)) (last : str) :
  In (r, P) table ->
  Forall (fun f => ws_ok (gap P) (snd f)) frags ->
  apply r (weave P frags last) = weave_out r P frags last.
Proof.
  intros HrP Hfr.
  assert (Hr : In r rules)
    by (rewrite <- table_rules; now apply (in_map fst) in HrP).
  pose proof (realizes_rule _ _ HrP) as HR.
  induction Hfr as [|[u ws] frags Hws _ IH]; [reflexivity|].
  simpl in *. rewrite <- IH.
  change (apply r ?x) with (gsub (Mof r) x).
  apply gsub_rewrite.
  - now apply rules_productive.
  - destruct (rules_compat r r Hr Hr _ _ _
                (realizes_hit _ _ ws [] HR Hws)) as ([Hc _] & _).
    rewrite app_nil_r, firstn_all in Hc. exact Hc.
  - now apply realizes_hit.
Qed.

Lemma every_occurrence_rewritten_witness :
  In (rule8, shape8) table
  /\ Forall (fun f => ws_ok (gap shape8) (snd f))
            [(lit "a", []); (lit "b", [])]
  /\ apply rule8 (weave shape8 [(lit "a", []); (lit "b", [])] (lit "c"))
     = weave_out rule8 shape8 [(lit "a", []); (lit "b", [])] (lit "c").
Proof.
  assert (H1 : In (rule8, shape8) table) by (do 6 right; now left).
  assert (H2 : Forall (fun f => ws_ok (gap shape8) (snd f))
                      [(lit "a", []); (lit "b", [])])
    by (repeat constructor).
  split; [exact H1|split; [exact H2|]].
  exact (every_occurrence_rewritten rule8 shape8 _ (lit "c") H1 H2).
Defined.

(** ** What a rule changes *)

Lemma value_edit_refl (a : str) : value_edit a a = true.
Proof.
  induction a as [|x a IH]; [reflexivity|]. simpl.
  now rewrite N.eqb_refl, IH.
Qed.

Lemma value_edit_app (a a' b b' : str) :
  value_edit a a' = true -> value_edit b b' = true ->
  value_edit (a ++ b) (a' ++ b') = true.
Proof.
  revert a'; induction a as [|x a IH]; intros [|y a'] Ha Hb; simpl in *;
    try discriminate; [exact Hb|].
  apply andb_true_iff in Ha as [Hxy Ha]. rewrite Hxy. simpl. now apply IH.
Qed.

Lemma gsub_value_edit (M : str -> option (nat * str)) (P : shape) :
  realizes M P -> pre P <> [] -> rgap P = None ->
  value_edit (pre P) (rhead P) = true ->
  value_edit (post P) (rtail P) = true ->
  forall s, value_edit s (gsub M s) = true.
Proof.
  intros HM Hpre Hg H1 H2 s.
  pose proof (realizes_productive _ _ HM Hpre) as Hpos.
  remember (length s) as k eqn:Hk.
  revert s Hk; induction k as [k IH] using lt_wf_ind; intros s Hk.
  destruct s as [|c s]; [now rewrite (gsub_nil M Hpos)|].
  destruct (M (c :: s)) as [[n r]|] eqn:E.
  - pose proof E as E'.
    apply HM in E' as (ws & rest & Es & Hws & -> & ->).
    assert (Es' : c :: s = text P ws ++ rest)
      by (rewrite Es; unfold text; now rewrite <- !app_assoc).
    rewrite Es' in *. rewrite (gsub_hit_app M Hpos _ _ _ E).
    apply value_edit_app.
    + unfold text, fill. rewrite Hg.
      apply value_edit_app; [exact H1|].
      apply value_edit_app; [apply value_edit_refl|exact H2].
    + apply (IH (length rest)); [|reflexivity].
      rewrite Hk, length_app. unfold text. rewrite length_app.
      destruct (pre P); [now elim Hpre|]. simpl. lia.
  - rewrite (gsub_miss M _ _ E). simpl. rewrite N.eqb_refl. simpl.
    apply (IH (length s)); [simpl in Hk; lia|reflexivity].
Qed.

(** C3, as stated, fails for rule 3: with one space between
    [letter-spacing: -0.3px;] and [border-bottom], the output has two. *)
Lemma rule3_changes_white_space :
  ~ (forall (r : rule) (s : str),
        In r rules -> value_edit s (apply r s) = true).
Proof.
  intros H.
  specialize (H rule3 (letter_spacing ++ sp ++ border_bottom13)
                ltac:(do 2 right; now left)).
  vm_compute in H. discriminate.
Qed.

Lemma literals_with_value :
  td_with (lit "13") = td13 /\ td_with (lit "20") = td20
  /\ td_with (lit "24") = td24
  /\ div_with (lit "13") = div13 /\ div_with (lit "20") = div20
  /\ border_bottom_with (lit "13") = border_bottom13
  /\ sp ++ sp ++ border_bottom_with (lit "20") = two_spaces_border_bottom20
  /\ margin_bottom_with (lit "13") = margin_bottom13
  /\ margin_bottom_with (lit "20") = margin_bottom20
  /\ padding_bottom_with (lit "10") = padding_bottom10
  /\ padding_bottom_with (lit "20") = padding_bottom20.
Proof. repeat split. Qed.

Lemma shape_fragment (r : rule) (P : shape) (ws : str) :
  In (r, P) table -> ws_ok (gap P) ws ->
  fragment r (text P ws) (fill P ws).
Proof.
  intros HT Hws. unfold table in HT.
  repeat (destruct HT as [HT|HT]; [injection HT as <- <-|]);
    [..|destruct HT]; simpl in Hws.
  - exact (frag1 ws (proj1 Hws)).
  - subst ws. exact frag2.
  - exact (frag3 ws (proj1 Hws) (proj2 Hws)).
  - exact (frag4 ws (proj1 Hws)).
  - subst ws. exact frag5.
  - subst ws. exact frag6.
  - subst ws. exact frag8.
Qed.

Lemma fragment_shape (r : rule) (m m' : str) :
  fragment r m m' ->
  exists P ws, In (r, P) table /\ ws_ok (gap P) ws
               /\ m = text P ws /\ m' = fill P ws.
Proof.
  intros H. destruct H as [ws Hws| |ws Hws Hlen|ws Hws| | | ].
  - exists shape1, ws. repeat split; [now left|exact Hws|apply Nat.le_0_l].
  - exists shape2, []. repeat split. right. now left.
  - exists shape3, ws. repeat split; [do 2 right; now left|exact Hws|exact Hlen].
  - exists shape4, ws.
    repeat split; [do 3 right; now left|exact Hws|apply Nat.le_0_l].
  - exists shape5, []. repeat split. do 4 right. now left.
  - exists shape6, []. repeat split. do 5 right. now left.
  - exists shape8, []. repeat split. do 6 right. now left.
Qed.

Lemma apply_rewritten (r : rule) (s : str) :
  In r rules -> rewritten r s (apply r s).
Proof.
  intros Hr. destruct (table_shape r Hr) as (P & HT & HM).
  pose proof (rules_productive r Hr) as Hpos.
  change (apply r s) with (gsub (Mof r) s).
  remember (length s) as k eqn:Hk.
  revert s Hk; induction k as [k IH] using lt_wf_ind; intros s Hk.
  destruct s as [|c s]; [rewrite (gsub_nil _ Hpos); constructor|].
  destruct (Mof r (c :: s)) as [[n r']|] eqn:E.
  - pose proof E as E'.
    apply HM in E' as (ws & rest & Es & Hws & -> & ->).
    assert (Es' : c :: s = text P ws ++ rest)
      by (rewrite Es; unfold text; now rewrite <- !app_assoc).
    rewrite Es' in E. rewrite Es' in Hk. rewrite Es'.
    rewrite (gsub_hit_app _ Hpos _ _ _ E).
    apply rw_frag; [now apply shape_fragment|].
    apply (IH (length rest)); [|reflexivity].
    rewrite Hk, length_app.
    pose proof (Hpos _ _ _ E) as Hn. lia.
  - rewrite (gsub_miss _ _ _ E).
    apply rw_keep; [now apply Mof_none|].
    apply (IH (length s)); [simpl in Hk; lia|reflexivity].
Qed.

Lemma rewritten_apply (r : rule) (s s' : str) :
  In r rules -> rewritten r s s' -> s' = apply r s.
Proof.
  intros Hr H. pose proof (rules_productive r Hr) as Hpos.
  change (apply r s) with (gsub (Mof r) s).
  induction H as [|c a b Hnone H IH|m m' a b Hf H IH].
  - now rewrite (gsub_nil _ Hpos).
  - rewrite (gsub_miss (Mof r) c a); [now rewrite IH|now apply Mof_none].
  - destruct (fragment_shape _ _ _ Hf) as (P & ws & HT & Hws & -> & ->).
    rewrite (gsub_hit_app (Mof r) Hpos (text P ws) a (fill P ws));
      [now rewrite IH|].
    apply realizes_hit; [now apply realizes_rule|exact Hws].
Qed.

(** C3, amended: every rule copies the text at which its pattern does not
    match and replaces each fragment it matches.  In rules 1, 2, 4, 5, 6
    and 8 the replacement differs from the matched fragment in the numeric
    value only (13 to 20, 10 to 20 in rule 6, 24 to 20 in rule 8); the other
    characters of the fragment, white space included, are unchanged.  In
    rule 3 the value becomes 20 and the white space between
    [letter-spacing: -0.3px;] and [border-bottom] is replaced by exactly two
    spaces.  The output is determined by this description. *)
Theorem only_value_changed (r : rule) (s : str) :
  In r rules ->
  rewritten r s (apply r s)
  /\ forall s', rewritten r s s' -> s' = apply r s.
Proof.
  intros Hr. split; [now apply apply_rewritten|].
  intros s'. now apply rewritten_apply.
Qed.

Lemma only_value_changed_witness :
  In rule3 rules
  /\ rewritten rule3
               (lit "a" ++ letter_spacing ++ nl ++ border_bottom13 ++ lit "b")
               (apply rule3 (lit "a" ++ letter_spacing ++ nl
                               ++ border_bottom13 ++ lit "b"))
  /\ forall s',
      rewritten rule3
                (lit "a" ++ letter_spacing ++ nl ++ border_bottom13
                   ++ lit "b") s' ->
      s' = apply rule3 (lit "a" ++ letter_spacing ++ nl ++ border_bottom13
                          ++ lit "b").
Proof.
  assert (H : In rule3 rules) by (do 2 right; now left).
  split; [exact H|].
  exact (only_value_changed rule3 _ H).
Defined.

(** ** The files *)



(** * Further properties of the script *)

(** ** One rule *)

Lemma gsub_fixed_iff_clean (M : str -> option (nat * str)) (s : str) :
  productive M -> compat M M -> (gsub M s = s <-> clean M s).
Proof.
  intros Hpos Hself. split.
  - intros E. rewrite <- E. now apply gsub_self_clean.
  - now apply gsub_clean.
Qed.

(** X1: each substitution is idempotent on its own: a second call of the
    same [re.sub] changes nothing. *)
Theorem rule_idempotent (r : rule) (s : str) :
  In r rules -> apply r (apply r s) = apply r s.
Proof.
  intros Hr. change (gsub (Mof r) (gsub (Mof r) s) = gsub (Mof r) s).
  apply gsub_clean; [now apply rules_productive|].
  apply gsub_self_clean; [now apply rules_productive|now apply rules_compat].
Qed.

Lemma rule_idempotent_witness :
  In rule3 rules
  /\ apply rule3 (apply rule3 (letter_spacing ++ nl ++ border_bottom13))
     = apply rule3 (letter_spacing ++ nl ++ border_bottom13).
Proof.
  assert (H : In rule3 rules) by (do 2 right; now left).
  split; [exact H|].
  exact (rule_idempotent rule3 (letter_spacing ++ nl ++ border_bottom13) H).
Defined.

(** X2: a rule leaves the content as it is exactly when its pattern occurs
    nowhere in it. *)
Theorem rule_changes_iff_occurs (r : rule) (s : str) :
  In r rules -> (apply r s = s <-> occurs (pat r) s = false).
Proof.
  intros Hr. rewrite occurs_clean.
  apply gsub_fixed_iff_clean;
    [now apply rules_productive|now apply rules_compat].
Qed.

Lemma rule_changes_iff_occurs_witness :
  In rule5 rules
  /\ (apply rule5 (text_align_right ++ margin_bottom20)
      = text_align_right ++ margin_bottom20
      <-> occurs (pat rule5) (text_align_right ++ margin_bottom20) = false).
Proof.
  assert (H : In rule5 rules) by (do 4 right; now left).
  split; [exact H|].
  exact (rule_changes_iff_occurs rule5
           (text_align_right ++ margin_bottom20) H).
Defined.

(** ** The whole script *)

Lemma output_pattern_free_aux (c : str) :
  contains_none rules (substitute c) = true.
Proof.
  unfold contains_none. apply forallb_forall.
  intros r Hr. apply negb_true_iff, occurs_clean.
  now apply substitute_clean.
Qed.

(** X3: in the output of the script none of the seven patterns occurs. *)
Theorem output_pattern_free (c : str) :
  contains_none rules (fst (normalize c)) = true.
Proof. exact (output_pattern_free_aux c). Qed.

(** X4: [changed] is true exactly when one of the seven patterns occurs in
    the content. *)
Theorem changed_iff_pattern (c : str) :
  snd (normalize c) = true <-> contains_none rules c = false.
Proof.
  unfold normalize, snd. rewrite negb_true_iff. split.
  - intros E. destruct (contains_none rules c) eqn:Hn; [|reflexivity].
    assert (Es : substitute c = c).
    { change (run rules c = c). apply run_id; [apply incl_refl|].
      unfold contains_none in Hn. rewrite forallb_forall in Hn.
      intros r Hr. apply occurs_clean. specialize (Hn r Hr).
      now destruct (occurs (pat r) c). }
    rewrite Es, str_eqb_refl in E. discriminate.
  - intros Hn. destruct (str_eqb (substitute c) c) eqn:E; [|reflexivity].
    apply str_eqb_spec in E.
    assert (Ht : contains_none rules c = true).
    { rewrite <- E. apply (output_pattern_free_aux c). }
    congruence.
Qed.

(** ** The order of the rules *)

Section Commute.

Variables Mi Mj : str -> option (nat * str).
Hypothesis Mi_pos : productive Mi.
Hypothesis Mj_pos : productive Mj.
Hypothesis Cij : compat Mi Mj.
Hypothesis Cji : compat Mj Mi.
(* a match depends on the matched text only *)
Hypothesis Di : forall s n r, Mi s = Some (n, r) ->
                forall x, Mi (firstn n s ++ x) = Some (n, r).
Hypothesis Dj : forall s n r, Mj s = Some (n, r) ->
                forall x, Mj (firstn n s ++ x) = Some (n, r).
(* the two patterns never match at the same place *)
Hypothesis Eij : forall s n r, Mj s = Some (n, r) ->
                 forall x, Mi (firstn n s ++ x) = None.
Hypothesis Eji : forall s n r, Mi s = Some (n, r) ->
                 forall x, Mj (firstn n s ++ x) = None.

Lemma head_through_ij (t : str) :
  forall u, u <> [] -> Mi (u ++ gsub Mj t) = Mi (u ++ t).
Proof.
  remember (length t) as k eqn:Hk.
  revert t Hk; induction k as [k IH] using lt_wf_ind; intros t Hk u Hu.
  destruct t as [|c t]; [now rewrite (gsub_nil Mj Mj_pos)|].
  destruct (Mj (c :: t)) as [[n r]|] eqn:E.
  - destruct (Cij _ _ _ E) as ([Hm _] & [Hr _] & _).
    rewrite (gsub_hit Mj Mj_pos _ _ _ E).
    rewrite (Hr u _ Hu).
    rewrite <- (firstn_skipn n (c :: t)).
    now rewrite (Hm u _ Hu).
  - rewrite (gsub_miss Mj _ _ E).
    change (u ++ c :: gsub Mj t) with (u ++ [c] ++ gsub Mj t).
    change (u ++ c :: t) with (u ++ [c] ++ t).
    rewrite !app_assoc.
    apply (IH (length t)); [simpl in Hk; lia|reflexivity|].
    now destruct u.
Qed.

Lemma gsub_commute (s : str) :
  (forall t u, u <> [] -> Mj (u ++ gsub Mi t) = Mj (u ++ t)) ->
  gsub Mi (gsub Mj s) = gsub Mj (gsub Mi s).
Proof.
  intros Hji.
  remember (length s) as k eqn:Hk.
  revert s Hk; induction k as [k IH] using lt_wf_ind; intros s Hk.
  destruct s as [|c t].
  { now rewrite (gsub_nil Mj Mj_pos), (gsub_nil Mi Mi_pos),
      (gsub_nil Mj Mj_pos). }
  destruct (Mj (c :: t)) as [[n r]|] eqn:Ej.
  - (* [Mj] matches here: [Mi] lets the match and its replacement pass *)
    pose proof (Mj_pos _ _ _ Ej) as Hn.
    destruct (Cij _ _ _ Ej) as ([_ Hm] & [_ Hr] & H0).
    pose proof (Eij _ _ _ Ej) as Hex.
    pose proof (Dj _ _ _ Ej) as Hd.
    rewrite (gsub_hit Mj Mj_pos _ _ _ Ej).
    rewrite (gsub_pass Mi r _ Hr (H0 _)).
    rewrite <- (firstn_skipn n (c :: t)) at 2.
    rewrite (gsub_pass Mi _ _ Hm (Hex _)).
    assert (Hlen : length (firstn n (c :: t)) = n)
      by (rewrite length_firstn; lia).
    assert (Hd' : Mj (firstn n (c :: t) ++ gsub Mi (skipn n (c :: t)))
                  = Some (length (firstn n (c :: t)), r))
      by (rewrite Hlen; apply Hd).
    rewrite (gsub_hit_app Mj Mj_pos _ _ _ Hd').
    f_equal. apply (IH (length (skipn n (c :: t))));
      [rewrite length_skipn; lia|reflexivity].
  - destruct (Mi (c :: t)) as [[n r]|] eqn:Ei.
    + (* [Mi] matches here: the same, with the rules exchanged *)
      pose proof (Mi_pos _ _ _ Ei) as Hn.
      destruct (Cji _ _ _ Ei) as ([_ Hm] & [_ Hr] & H0).
      pose proof (Eji _ _ _ Ei) as Hex.
      pose proof (Di _ _ _ Ei) as Hd.
      rewrite (gsub_hit Mi Mi_pos _ _ _ Ei).
      rewrite (gsub_pass Mj r _ Hr (H0 _)).
      rewrite <- (firstn_skipn n (c :: t)) at 1.
      rewrite (gsub_pass Mj _ _ Hm (Hex _)).
      assert (Hlen : length (firstn n (c :: t)) = n)
        by (rewrite length_firstn; lia).
      assert (Hd' : Mi (firstn n (c :: t) ++ gsub Mj (skipn n (c :: t)))
                    = Some (length (firstn n (c :: t)), r))
        by (rewrite Hlen; apply Hd).
      rewrite (gsub_hit_app Mi Mi_pos _ _ _ Hd').
      f_equal. apply (IH (length (skipn n (c :: t))));
        [rewrite length_skipn; lia|reflexivity].
    + (* neither matches here, before or after the other substitution *)
      rewrite (gsub_miss Mj _ _ Ej), (gsub_miss Mi _ _ Ei).
      assert (Hi' : Mi (c :: gsub Mj t) = None).
      { change (Mi ([c] ++ gsub Mj t) = None).
        rewrite head_through_ij by discriminate. exact Ei. }
      assert (Hj' : Mj (c :: gsub Mi t) = None).
      { change (Mj ([c] ++ gsub Mi t) = None).
        rewrite Hji by discriminate. exact Ej. }
      rewrite (gsub_miss Mi _ _ Hi'), (gsub_miss Mj _ _ Hj').
      f_equal. apply (IH (length t)); [simpl in Hk; lia|reflexivity].
Qed.

End Commute.


Lemma realizes_determined (M : str -> option (nat * str)) (P : shape)
      (s : str) (n : nat) (r : str) :
  realizes M P -> M s = Some (n, r) ->
  exists ws, ws_ok (gap P) ws /\ firstn n s = text P ws
             /\ n = length (text P ws) /\ r = fill P ws.
Proof.
  intros HM H. apply HM in H as (ws & rest & -> & Hws & -> & ->).
  exists ws. rewrite firstn_text. now repeat split.
Qed.

Lemma commute_of_shapes (Mi Mj : str -> option (nat * str))
      (Pi Pj : shape) :
  realizes Mi Pi -> realizes Mj Pj ->
  head_nonspace (pre Pi) = true -> head_nonspace (pre Pj) = true ->
  pair_ok Pi Pj = true -> pair_ok Pj Pi = true ->
  head_ok Pi (pre Pj) (post Pj) = true ->
  head_ok Pj (pre Pi) (post Pi) = true ->
  forall s, gsub Mi (gsub Mj s) = gsub Mj (gsub Mi s).
Proof.
  intros Ri Rj Hi Hj Oij Oji Xij Xji s.
  assert (Pi_pos : productive Mi).
  { apply (realizes_productive _ _ Ri). now destruct (pre Pi). }
  assert (Pj_pos : productive Mj).
  { apply (realizes_productive _ _ Rj). now destruct (pre Pj). }
  pose proof (compat_of_pair _ _ _ _ Ri Rj Oij) as Cij.
  pose proof (compat_of_pair _ _ _ _ Rj Ri Oji) as Cji.
  apply (gsub_commute Mi Mj Pi_pos Pj_pos Cij Cji).
  - intros t n r H x.
    destruct (realizes_determined _ _ _ _ _ Ri H) as (ws & Hws & -> & -> & ->).
    now apply realizes_hit.
  - intros t n r H x.
    destruct (realizes_determined _ _ _ _ _ Rj H) as (ws & Hws & -> & -> & ->).
    now apply realizes_hit.
  - intros t n r H x.
    destruct (realizes_determined _ _ _ _ _ Rj H) as (ws & Hws & -> & -> & ->).
    now apply (head_clear _ Pi Pj).
  - intros t n r H x.
    destruct (realizes_determined _ _ _ _ _ Ri H) as (ws & Hws & -> & -> & ->).
    now apply (head_clear _ Pj Pi).
  - intros t u Hu. now apply (head_through_ij Mj Mi Pi_pos Cji).
Qed.

Lemma apply_commute (ri rj : rule) (s : str) :
  In ri rules -> In rj rules ->
  apply ri (apply rj s) = apply rj (apply ri s).
Proof.
  intros Hi Hj.
  destruct (table_shape ri Hi) as (Pi & Ti & Ri).
  destruct (table_shape rj Hj) as (Pj & Tj & Rj).
  change (gsub (Mof ri) (gsub (Mof rj) s) = gsub (Mof rj) (gsub (Mof ri) s)).
  unfold table in Ti, Tj.
  repeat (destruct Ti as [Ti|Ti]; [injection Ti as <- <-|]);
    [..|destruct Ti];
    (repeat (destruct Tj as [Tj|Tj]; [injection Tj as <- <-|]);
     [..|destruct Tj]);
    first [ solve [apply (commute_of_shapes _ _ _ _ Ri Rj);
                   vm_compute; reflexivity]
          | reflexivity ].
Qed.

(** X5: any two substitutions of the script commute: applying one and then
    the other gives the same content in either order. *)
Theorem rules_commute (ri rj : rule) (s : str) :
  In ri rules -> In rj rules ->
  apply ri (apply rj s) = apply rj (apply ri s).
Proof. apply apply_commute. Qed.

Lemma rules_commute_witness :
  In rule1 rules /\ In rule8 rules
  /\ apply rule1 (apply rule8 (td24 ++ td13 ++ top_border_comment))
     = apply rule8 (apply rule1 (td24 ++ td13 ++ top_border_comment)).
Proof.
  assert (H1 : In rule1 rules) by now left.
  assert (H8 : In rule8 rules) by (do 6 right; now left).
  split; [exact H1|split; [exact H8|]].
  exact (rules_commute rule1 rule8 _ H1 H8).
Defined.

Lemma run_perm (l l' : list rule) :
  Permutation l l' -> incl l rules -> forall c, run l c = run l' c.
Proof.
  induction 1 as [|x l l' Hp IH|x y l|l l' l'' Hp1 IH1 Hp2 IH2];
    intros Hin c.
  - reflexivity.
  - rewrite !run_cons. apply IH. intros r Hr. apply Hin. now right.
  - rewrite !run_cons.
    change (gsub (Mof x) (gsub (Mof y) c))
      with (apply x (apply y c)).
    change (gsub (Mof y) (gsub (Mof x) c))
      with (apply y (apply x c)).
    rewrite (apply_commute x y);
      [reflexivity|apply Hin; right; now left|apply Hin; now left].
  - rewrite IH1 by exact Hin. apply IH2.
    intros r Hr. apply Hin. apply (Permutation_in _ (Permutation_sym Hp1) Hr).
Qed.

(** X6: the order of the seven substitutions does not matter: applied in
    any order, they give the content the script gives. *)
Theorem rule_order_irrelevant (rs : list rule) (c : str) :
  Permutation rs rules -> run rs c = substitute c.
Proof.
  intros Hp. change (substitute c) with (run rules c).
  apply run_perm; [exact Hp|].
  intros r Hr. apply (Permutation_in _ Hp Hr).
Qed.

Lemma rule_order_irrelevant_witness :
  Permutation (rev rules) rules
  /\ run (rev rules) (td24 ++ td13 ++ nl ++ top_border_comment)
     = substitute (td24 ++ td13 ++ nl ++ top_border_comment).
Proof.
  assert (H : Permutation (rev rules) rules)
    by (apply Permutation_sym, Permutation_rev).
  split; [exact H|].
  exact (rule_order_irrelevant (rev rules) _ H).
Defined.

(** ** The fragments of rules 3 to 6 *)

(** X7: [letter-spacing: -0.3px;], white space, and the [border-bottom]
    declaration with [padding-bottom: 13px;] come out with two spaces in
    between and [padding-bottom: 20px;], whatever stands before and after;
    the content around the fragment is normalised on its own. *)
Theorem letter_spacing_rewritten (u ws v : str) :
  all_space ws = true -> 1 <= length ws ->
  fst (normalize (u ++ letter_spacing ++ ws ++ border_bottom13 ++ v))
  = fst (normalize u) ++ letter_spacing ++ sp ++ sp ++ border_bottom20
      ++ fst (normalize v).
Proof.
  intros Hws Hlen. unfold normalize, fst.
  pose proof (fragment_rewritten [rule1; rule2] [rule4; rule5; rule6; rule8]
                rule3 shape3 ws u v eq_refl) as H.
  unfold text, fill in H. simpl pre in H. simpl post in H.
  simpl rhead in H. simpl rgap in H. simpl rtail in H. cbv iota in H.
  rewrite <- !app_assoc in H. apply H.
  - apply realizes_rule. do 2 right. now left.
  - intros ri x Hri.
    repeat (destruct Hri as [<-|Hri]); [..|destruct Hri].
    + apply (head_clear _ shape1 shape3 ws x);
        [apply realizes_rule; now left|reflexivity|now split].
    + apply (head_clear _ shape2 shape3 ws x);
        [apply realizes_rule; right; now left|reflexivity|now split].
  - now split.
Qed.

Lemma letter_spacing_rewritten_witness :
  all_space (nl ++ sp) = true /\ 1 <= length (nl ++ sp)
  /\ fst (normalize (lit "a" ++ letter_spacing ++ (nl ++ sp)
                       ++ border_bottom13 ++ lit "b"))
     = fst (normalize (lit "a")) ++ letter_spacing ++ sp ++ sp
         ++ border_bottom20 ++ fst (normalize (lit "b")).
Proof.
  assert (H1 : all_space (nl ++ sp) = true) by reflexivity.
  assert (H2 : 1 <= length (nl ++ sp)) by (simpl; lia).
  split; [exact H1|split; [exact H2|]].
  exact (letter_spacing_rewritten (lit "a") (nl ++ sp) (lit "b") H1 H2).
Defined.

(** X8: a [td] with [padding-top: 13px;] followed, possibly after white
    space, by the opening of a [div] whose style starts with [font-family]
    comes out with [padding-top: 20px;], white space and [div] as they
    were. *)
Theorem font_family_td_rewritten (u ws v : str) :
  all_space ws = true ->
  fst (normalize (u ++ td13 ++ ws ++ div_font_family ++ v))
  = fst (normalize u) ++ td20 ++ ws ++ div_font_family
      ++ fst (normalize v).
Proof.
  intros Hws. unfold normalize, fst.
  pose proof (fragment_rewritten [rule1; rule2; rule3] [rule5; rule6; rule8]
                rule4 shape4 ws u v eq_refl) as H.
  unfold text, fill in H. simpl pre in H. simpl post in H.
  simpl rhead in H. simpl rgap in H. simpl rtail in H. cbv iota in H.
  rewrite <- !app_assoc in H. apply H.
  - apply realizes_rule. do 3 right. now left.
  - assert (Hok : ws_ok (gap shape4) ws)
      by (split; [exact Hws|apply Nat.le_0_l]).
    intros ri x Hri.
    repeat (destruct Hri as [<-|Hri]); [..|destruct Hri].
    + apply (head_clear _ shape1 shape4 ws x);
        [apply realizes_rule; now left|reflexivity|exact Hok].
    + apply (head_clear _ shape2 shape4 ws x);
        [apply realizes_rule; right; now left|reflexivity|exact Hok].
    + apply (head_clear _ shape3 shape4 ws x);
        [apply realizes_rule; do 2 right; now left|reflexivity|exact Hok].
  - split; [exact Hws|apply Nat.le_0_l].
Qed.

Lemma font_family_td_rewritten_witness :
  all_space nl = true
  /\ fst (normalize (td13 ++ nl ++ div_font_family ++ lit ": Arial"))
     = fst (normalize []) ++ td20 ++ nl ++ div_font_family
         ++ fst (normalize (lit ": Arial")).
Proof.
  assert (H : all_space nl = true) by reflexivity.
  split; [exact H|].
  exact (font_family_td_rewritten [] nl (lit ": Arial") H).
Defined.

(** X9: [text-align: right; margin-bottom: 13px;] closing a style attribute
    and its tag comes out with [margin-bottom: 20px;]. *)
Theorem margin_bottom_rewritten (u v : str) :
  fst (normalize (u ++ text_align_right ++ margin_bottom13 ++ v))
  = fst (normalize u) ++ text_align_right ++ margin_bottom20
      ++ fst (normalize v).
Proof.
  unfold normalize, fst.
  change (substitute (u ++ text shape5 [] ++ v)
          = substitute u ++ fill shape5 [] ++ substitute v).
  apply (fragment_rewritten [rule1; rule2; rule3; rule4] [rule6; rule8]
           rule5 shape5 [] u v eq_refl).
  - apply realizes_rule. do 4 right. now left.
  - intros ri x Hri.
    repeat (destruct Hri as [<-|Hri]); [..|destruct Hri].
    + apply (head_clear _ shape1 shape5 [] x);
        [apply realizes_rule; now left|reflexivity|reflexivity].
    + apply (head_clear _ shape2 shape5 [] x);
        [apply realizes_rule; right; now left|reflexivity|reflexivity].
    + apply (head_clear _ shape3 shape5 [] x);
        [apply realizes_rule; do 2 right; now left|reflexivity|reflexivity].
    + apply (head_clear _ shape4 shape5 [] x);
        [apply realizes_rule; do 3 right; now left|reflexivity|reflexivity].
  - reflexivity.
Qed.

(** X10: [text-align: right; padding-bottom: 10px;] closing a style
    attribute and its tag comes out with [padding-bottom: 20px;]. *)
Theorem padding_bottom_rewritten (u v : str) :
  fst (normalize (u ++ text_align_right ++ padding_bottom10 ++ v))
  = fst (normalize u) ++ text_align_right ++ padding_bottom20
      ++ fst (normalize v).
Proof.
  unfold normalize, fst.
  change (substitute (u ++ text shape6 [] ++ v)
          = substitute u ++ fill shape6 [] ++ substitute v).
  apply (fragment_rewritten [rule1; rule2; rule3; rule4; rule5] [rule8]
           rule6 shape6 [] u v eq_refl).
  - apply realizes_rule. do 5 right. now left.
  - intros ri x Hri.
    repeat (destruct Hri as [<-|Hri]); [..|destruct Hri].
    + apply (head_clear _ shape1 shape6 [] x);
        [apply realizes_rule; now left|reflexivity|reflexivity].
    + apply (head_clear _ shape2 shape6 [] x);
        [apply realizes_rule; right; now left|reflexivity|reflexivity].
    + apply (head_clear _ shape3 shape6 [] x);
        [apply realizes_rule; do 2 right; now left|reflexivity|reflexivity].
    + apply (head_clear _ shape4 shape6 [] x);
        [apply realizes_rule; do 3 right; now left|reflexivity|reflexivity].
    + apply (head_clear _ shape5 shape6 [] x);
        [apply realizes_rule; do 4 right; now left|reflexivity|reflexivity].
  - reflexivity.
Qed.

(** ** Only rule 3 changes more than digits *)

Lemma value_edit_trans (a b c : str) :
  value_edit a b = true -> value_edit b c = true -> value_edit a c = true.
Proof.
  revert b c; induction a as [|x a IH]; intros [|y b] [|z c] H1 H2;
    simpl in *; try discriminate; [reflexivity|].
  apply andb_true_iff in H1 as [Hxy H1].
  apply andb_true_iff in H2 as [Hyz H2].
  rewrite (IH b c H1 H2), andb_true_r.
  apply orb_true_iff in Hxy as [Hxy|Hxy];
    apply orb_true_iff in Hyz as [Hyz|Hyz].
  - apply N.eqb_eq in Hxy, Hyz. subst. now rewrite N.eqb_refl.
  - apply N.eqb_eq in Hxy. subst. now rewrite Hyz, orb_true_r.
  - apply N.eqb_eq in Hyz. subst. now rewrite Hxy, orb_true_r.
  - apply andb_true_iff in Hxy as [Hx _]. apply andb_true_iff in Hyz as [_ Hz].
    now rewrite Hx, Hz, orb_true_r.
Qed.

Lemma value_edit_length (a b : str) :
  value_edit a b = true -> length a = length b.
Proof.
  revert b; induction a as [|x a IH]; intros [|y b] H; simpl in *;
    try discriminate; [reflexivity|].
  apply andb_true_iff in H as [_ H]. f_equal. now apply IH.
Qed.

Lemma apply_value_edit (r : rule) (P : shape) (s : str) :
  In (r, P) table -> rgap P = None ->
  value_edit (pre P) (rhead P) = true ->
  value_edit (post P) (rtail P) = true ->
  value_edit s (apply r s) = true.
Proof.
  intros HT Hg H1 H2. change (apply r s) with (gsub (Mof r) s).
  apply (gsub_value_edit _ P); try assumption.
  - now apply realizes_rule.
  - pose proof table_pre as H. rewrite forallb_forall in H.
    specialize (H _ HT). simpl in H. now destruct (pre P).
Qed.

(** X11: content in which the pattern of rule 3 does not occur goes through
    the whole script with its length unchanged, and differs from the output
    only where both hold a decimal digit. *)
Theorem digits_only_without_rule3 (c : str) :
  occurs (pat rule3) c = false ->
  value_edit c (fst (normalize c)) = true
  /\ length (fst (normalize c)) = length c.
Proof.
  intros H3. unfold normalize, fst.
  assert (Hv : value_edit c (substitute c) = true).
  { apply occurs_clean in H3.
    assert (I1 : In rule1 rules) by now left.
    assert (I2 : In rule2 rules) by (right; now left).
    assert (I3 : In rule3 rules) by (do 2 right; now left).
    pose proof (clean_preserved _ _ (rules_productive _ I3)
                  (rules_productive _ I1) (rules_compat _ _ I3 I1) _ H3)
      as H3a.
    pose proof (clean_preserved _ _ (rules_productive _ I3)
                  (rules_productive _ I2) (rules_compat _ _ I3 I2) _ H3a)
      as H3b.
    pose proof (gsub_clean _ (rules_productive _ I3) _ H3b) as E3.
    change (substitute c)
      with (apply rule8 (apply rule6 (apply rule5 (apply rule4
             (gsub (Mof rule3) (gsub (Mof rule2) (gsub (Mof rule1) c))))))).
    rewrite E3.
    change (gsub (Mof rule2) (gsub (Mof rule1) c))
      with (apply rule2 (apply rule1 c)).
    repeat (eapply value_edit_trans;
            [|eapply apply_value_edit;
              [unfold table; simpl; tauto|reflexivity..]]).
    apply value_edit_refl. }
  split; [exact Hv|]. symmetry. now apply value_edit_length.
Qed.

Lemma digits_only_without_rule3_witness :
  occurs (pat rule3) (td13 ++ top_border_comment ++ td24) = false
  /\ value_edit (td13 ++ top_border_comment ++ td24)
                (fst (normalize (td13 ++ top_border_comment ++ td24))) = true
  /\ length (fst (normalize (td13 ++ top_border_comment ++ td24)))
     = length (td13 ++ top_border_comment ++ td24).
Proof.
  assert (H : occurs (pat rule3) (td13 ++ top_border_comment ++ td24)
              = false) by (vm_compute; reflexivity).
  split; [exact H|].
  exact (digits_only_without_rule3 _ H).
Defined.

(** ** The run over the files *)

Lemma process_file_some (p : path) (fs : file_system) (c : str) :
  fs p = Some c ->
  exists fs1 t,
    process_file p fs = Some (fs1, t)
    /\ (forall q, fs1 q = if String.eqb q p then Some (substitute c)
                          else fs q)
    /\ (forall q x, In (EWrite q x) t ->
                    q = p /\ x = substitute c /\ substitute c <> c)
    /\ (substitute c = c -> fs1 = fs /\ written t = [])
    /\ (substitute c <> c -> written t = [p]).
Proof.
  intros Hp. unfold process_file. rewrite Hp.
  destruct (str_eqb (substitute c) c) eqn:E; simpl negb; cbv iota.
  - apply str_eqb_spec in E. eexists; eexists. split; [reflexivity|].
    split; [|split; [|split]].
    + intros q. destruct (String.eqb_spec q p) as [->|_]; [|reflexivity].
      now rewrite E.
    + intros q x H. simpl in H.
      repeat (destruct H as [H|H]; [discriminate|]). destruct H.
    + intros _. now split.
    + intros H. now elim H.
  - assert (Hne : substitute c <> c).
    { intros H. apply str_eqb_spec in H. congruence. }
    eexists; eexists. split; [reflexivity|].
    split; [|split; [|split]].
    + intros q. reflexivity.
    + intros q x H. simpl in H.
      repeat (destruct H as [H|H]; [try discriminate|]); [|destruct H].
      injection H as <- <-. now repeat split.
    + intros H. now elim Hne.
    + intros _. reflexivity.
Qed.

Lemma process_file_none (p : path) (fs : file_system) :
  process_file p fs = None <-> fs p = None.
Proof.
  unfold process_file. destruct (fs p) as [c|]; [|now split].
  split; [|discriminate].
  now destruct (negb (str_eqb (substitute c) c)).
Qed.

Lemma process_all_result (files : list path) :
  forall fs fs' t,
    process_all files fs = Some (fs', t) ->
    forall q, fs' q = if listed q files then option_map substitute (fs q)
                      else fs q.
Proof.
  induction files as [|p files IH]; intros fs fs' t H q.
  - simpl in H. now injection H as <- _.
  - simpl in H.
    destruct (fs p) as [c|] eqn:Hp.
    2:{ apply process_file_none in Hp. now rewrite Hp in H. }
    destruct (process_file_some p fs c Hp) as (fs1 & t1 & E1 & Hfs1 & _).
    rewrite E1 in H.
    destruct (process_all files fs1) as [[fs2 t2]|] eqn:E2; [|discriminate].
    injection H as <- _.
    rewrite (IH _ _ _ E2 q), Hfs1. unfold listed. simpl.
    destruct (String.eqb_spec q p) as [->|_]; simpl.
    + rewrite Hp. simpl. rewrite substitute_fixpoint.
      now destruct (existsb (String.eqb p) files).
    + reflexivity.
Qed.

Lemma process_all_completes (files : list path) :
  forall fs,
    (exists fs' t, process_all files fs = Some (fs', t))
    <-> (forall p, In p files -> fs p <> None).
Proof.
  induction files as [|p files IH]; intros fs.
  - split; [intros _ p []|]. intros _. now exists fs, [].
  - split.
    + intros (fs' & t & H) q Hq. simpl in H.
      destruct (fs p) as [c|] eqn:Hp.
      2:{ apply process_file_none in Hp. now rewrite Hp in H. }
      destruct (process_file_some p fs c Hp) as (fs1 & t1 & E1 & Hfs1 & _).
      rewrite E1 in H.
      destruct (process_all files fs1) as [[fs2 t2]|] eqn:E2;
        [|discriminate].
      destruct Hq as [<-|Hq]; [now rewrite Hp|].
      assert (Hq1 : fs1 q <> None)
        by (apply (proj1 (IH fs1)); [now exists fs2, t2|exact Hq]).
      rewrite Hfs1 in Hq1.
      destruct (String.eqb_spec q p) as [->|_]; [now rewrite Hp|exact Hq1].
    + intros Hall.
      destruct (fs p) as [c|] eqn:Hp; [|now elim (Hall p (or_introl eq_refl))].
      destruct (process_file_some p fs c Hp) as (fs1 & t1 & E1 & Hfs1 & _).
      assert (Hrest : forall q, In q files -> fs1 q <> None).
      { intros q Hq. rewrite Hfs1.
        destruct (String.eqb q p); [discriminate|].
        apply Hall. now right. }
      apply (proj2 (IH fs1)) in Hrest as (fs2 & t2 & E2).
      exists fs2, (t1 ++ t2). simpl. now rewrite E1, E2.
Qed.

Lemma process_all_writes (files : list path) :
  forall fs fs' t,
    process_all files fs = Some (fs', t) ->
    forall q x, In (EWrite q x) t ->
                In q files
                /\ exists c, fs q = Some c /\ x = substitute c
                             /\ substitute c <> c.
Proof.
  induction files as [|p files IH]; intros fs fs' t H q x Hin.
  - simpl in H. injection H as _ <-. destruct Hin.
  - simpl in H.
    destruct (fs p) as [c|] eqn:Hp.
    2:{ apply process_file_none in Hp. now rewrite Hp in H. }
    destruct (process_file_some p fs c Hp)
      as (fs1 & t1 & E1 & Hfs1 & Hw1 & _).
    rewrite E1 in H.
    destruct (process_all files fs1) as [[fs2 t2]|] eqn:E2; [|discriminate].
    injection H as _ <-. apply in_app_or in Hin as [Hin|Hin].
    + destruct (Hw1 _ _ Hin) as (-> & -> & Hne).
      split; [now left|]. now exists c.
    + destruct (IH _ _ _ E2 _ _ Hin) as (Hq & c' & Hc' & -> & Hne).
      split; [now right|]. exists c'. rewrite Hfs1 in Hc'.
      destruct (String.eqb_spec q p) as [->|_]; [|now repeat split].
      injection Hc' as <-. now rewrite substitute_fixpoint in Hne.
Qed.

Lemma process_all_written (files : list path) :
  forall fs fs' t,
    process_all files fs = Some (fs', t) -> NoDup (written t).
Proof.
  induction files as [|p files IH]; intros fs fs' t H.
  - simpl in H. injection H as _ <-. constructor.
  - simpl in H.
    destruct (fs p) as [c|] eqn:Hp.
    2:{ apply process_file_none in Hp. now rewrite Hp in H. }
    destruct (process_file_some p fs c Hp)
      as (fs1 & t1 & E1 & Hfs1 & _ & Hsame & Hdiff).
    rewrite E1 in H.
    destruct (process_all files fs1) as [[fs2 t2]|] eqn:E2; [|discriminate].
    injection H as _ <-. unfold written. rewrite flat_map_app.
    fold (written t1). fold (written t2).
    pose proof (IH _ _ _ E2) as Hnd.
    destruct (str_eqb (substitute c) c) eqn:E.
    + apply str_eqb_spec in E. now rewrite (proj2 (Hsame E)).
    + assert (Hne : substitute c <> c)
        by (intros X; apply str_eqb_spec in X; congruence).
      rewrite (Hdiff Hne). simpl. constructor; [|exact Hnd].
      intros Hin. unfold written in Hin. apply in_flat_map in Hin
        as (e & He & Hpe).
      destruct e as [m|p' m e|p'|p' x]; simpl in Hpe; try contradiction.
      destruct Hpe as [->|[]].
      destruct (process_all_writes _ _ _ _ E2 _ _ He)
        as (_ & c' & Hc' & _ & Hne').
      rewrite Hfs1, String.eqb_refl in Hc'. injection Hc' as <-.
      now rewrite substitute_fixpoint in Hne'.
Qed.

Lemma process_all_fixed (files : list path) (fs : file_system) :
  (forall p, In p files -> exists x, fs p = Some x /\ substitute x = x) ->
  exists t, process_all files fs = Some (fs, t) /\ written t = [].
Proof.
  induction files as [|p files IH]; intros Hall.
  - now exists [].
  - destruct (Hall p (or_introl eq_refl)) as (x & Hp & Hx).
    destruct (process_file_some p fs x Hp)
      as (fs1 & t1 & E1 & _ & _ & Hsame & _).
    destruct (Hsame Hx) as [-> Hw1].
    destruct IH as (t2 & E2 & Hw2).
    { intros q Hq. apply Hall. now right. }
    exists (t1 ++ t2). simpl. rewrite E1, E2. split; [reflexivity|].
    unfold written in *. now rewrite flat_map_app, Hw1, Hw2.
Qed.

Lemma main_inv (files : list path) (fs fs' : file_system) (t : list event) :
  main files fs = Some (fs', t) <->
  exists t0, process_all files fs = Some (fs', t0)
             /\ t = EPrint (Found (length files)) :: t0
                    ++ [EPrint AllProcessed].
Proof.
  unfold main. destruct (process_all files fs) as [[fs1 t1]|].
  - split.
    + intros H. injection H as <- <-. now exists t1.
    + intros (t0 & H & ->). now injection H as -> ->.
  - split; [discriminate|]. now intros (t0 & H & _).
Qed.

Lemma main_writes (files : list path) (t t0 : list event) (q : path)
      (x : str) :
  t = EPrint (Found (length files)) :: t0 ++ [EPrint AllProcessed] ->
  In (EWrite q x) t -> In (EWrite q x) t0.
Proof.
  intros -> [H|H]; [discriminate|].
  apply in_app_or in H as [H|[H|[]]]; [exact H|discriminate].
Qed.

Lemma listed_spec (q : path) (files : list path) :
  listed q files = true <-> In q files.
Proof.
  unfold listed. rewrite existsb_exists. split.
  - intros (p & Hp & E). apply String.eqb_eq in E. now subst.
  - intros H. exists q. split; [exact H|apply String.eqb_refl].
Qed.

Lemma example_run :
  main [example_path] example_fs = Some (example_after, example_trace).
Proof. vm_compute. reflexivity. Qed.


(** X14: running the script again changes nothing: the second run
    completes, writes no file and leaves every file as the first run left
    it. *)
Theorem rerun_writes_nothing (files : list path) (fs fs1 : file_system)
        (t1 : list event) :
  main files fs = Some (fs1, t1) ->
  exists t2, main files fs1 = Some (fs1, t2)
             /\ forall q x, ~ In (EWrite q x) t2.
Proof.
  intros H. pose proof H as H'. apply main_inv in H' as (t0 & H0 & _).
  destruct (process_all_fixed files fs1) as (t2 & E2 & Hw2).
  { intros p Hp.
    rewrite (process_all_result _ _ _ _ H0 p).
    rewrite (proj2 (listed_spec p files) Hp).
    assert (Hr : fs p <> None).
    { apply (proj1 (process_all_completes files fs)); [|exact Hp].
      now exists fs1, t0. }
    destruct (fs p) as [c|]; [|now elim Hr].
    exists (substitute c). split; [reflexivity|apply substitute_fixpoint]. }
  eexists. split.
  - apply main_inv. exists t2. split; [exact E2|reflexivity].
  - intros q x Hin. apply (main_writes files _ t2 q x eq_refl) in Hin.
    assert (Hq : In q (written t2)).
    { unfold written. apply in_flat_map. exists (EWrite q x).
      split; [exact Hin|now left]. }
    rewrite Hw2 in Hq. destruct Hq.
Qed.

Lemma rerun_writes_nothing_witness :
  main [example_path] example_fs = Some (example_after, example_trace)
  /\ exists t2, main [example_path] example_after = Some (example_after, t2)
                /\ forall q x, ~ In (EWrite q x) t2.
Proof.
  split; [exact example_run|].
  exact (rerun_writes_nothing _ _ _ _ example_run).
Defined.

(** X16: in a run that completes no file is written twice, also when its
    path is listed more than once. *)
Theorem written_once (files : list path) (fs fs' : file_system)
        (t : list event) :
  main files fs = Some (fs', t) -> NoDup (written t).
Proof.
  intros H. apply main_inv in H as (t0 & H0 & ->).
  pose proof (process_all_written _ _ _ _ H0) as Hnd.
  unfold written in *. simpl. rewrite flat_map_app. simpl.
  now rewrite app_nil_r.
Qed.

Lemma example_run_twice :
  main [example_path; example_path] example_fs
  = Some (example_after, example_trace_twice).
Proof. vm_compute. reflexivity. Qed.

Lemma written_once_witness :
  main [example_path; example_path] example_fs
  = Some (example_after, example_trace_twice)
  /\ NoDup (written example_trace_twice).
Proof.
  split; [exact example_run_twice|].
  exact (written_once _ _ _ _ example_run_twice).
Defined.




(** ** Text mode *)

Lemma read_newlines_no_cr (s : str) :
  forall b, forallb not_cr (read_newlines b s) = true.
Proof.
  induction s as [|c s IH]; intros b; [reflexivity|]. simpl.
  destruct (N.eqb c 13) eqn:Ec; [simpl; apply IH|].
  destruct (N.eqb c 10 && b); [apply IH|].
  simpl. unfold not_cr at 1. rewrite Ec. simpl. apply IH.
Qed.

Lemma read_newlines_plain (s : str) :
  forallb not_cr s = true -> read_newlines false s = s.
Proof.
  induction s as [|c s IH]; intros H; [reflexivity|].
  simpl in *. apply andb_true_iff in H as [Hc H].
  unfold not_cr in Hc. apply negb_true_iff in Hc. rewrite Hc.
  rewrite andb_false_r. now rewrite IH.
Qed.

Lemma newlines_round_trip (linesep s : str) :
  linesep_ok linesep -> forallb not_cr s = true ->
  universal_newlines (write_newlines linesep s) = s.
Proof.
  intros Hls H. unfold universal_newlines.
  induction s as [|c s IH]; [reflexivity|].
  simpl in H. apply andb_true_iff in H as [Hc H]. specialize (IH H).
  unfold not_cr in Hc. apply negb_true_iff in Hc.
  unfold write_newlines in *. simpl.
  destruct (N.eqb_spec c 10) as [->|Hne].
  - destruct Hls as [->| ->]; simpl; now rewrite IH.
  - simpl. rewrite Hc.
    destruct (N.eqb_spec c 10) as [|_]; [contradiction|].
    simpl. now rewrite IH.
Qed.

Lemma gsub_forallb (Q : char -> bool) (M : str -> option (nat * str)) :
  productive M ->
  (forall s n r, M s = Some (n, r) ->
                 forallb Q (firstn n s) = true -> forallb Q r = true) ->
  forall s, forallb Q s = true -> forallb Q (gsub M s) = true.
Proof.
  intros Hpos HM s.
  remember (length s) as k eqn:Hk.
  revert s Hk; induction k as [k IH] using lt_wf_ind; intros s Hk H.
  destruct s as [|c s]; [now rewrite (gsub_nil M Hpos)|].
  destruct (M (c :: s)) as [[n r]|] eqn:E.
  - pose proof (Hpos _ _ _ E) as Hn.
    rewrite (gsub_hit M Hpos _ _ _ E).
    rewrite <- (firstn_skipn n (c :: s)) in H.
    rewrite forallb_app in H. apply andb_true_iff in H as [H1 H2].
    rewrite forallb_app, (HM _ _ _ E H1). simpl.
    apply (IH (length (skipn n (c :: s))));
      [rewrite length_skipn; lia|reflexivity|exact H2].
  - rewrite (gsub_miss M _ _ E). simpl in *.
    apply andb_true_iff in H as [Hc H]. rewrite Hc. simpl.
    apply (IH (length s)); [simpl in Hk; lia|reflexivity|exact H].
Qed.

Lemma table_no_cr : forallb (fun a => adds_no_cr (snd a)) table = true.
Proof. vm_compute. reflexivity. Qed.

Lemma apply_no_cr (r : rule) (s : str) :
  In r rules -> forallb not_cr s = true ->
  forallb not_cr (apply r s) = true.
Proof.
  intros Hr. destruct (table_shape r Hr) as (P & HT & HM).
  apply gsub_forallb; [now apply rules_productive|].
  intros t n r' E H.
  destruct (realizes_determined _ _ _ _ _ HM E) as (ws & Hws & Ef & -> & ->).
  rewrite Ef in H. unfold text in H. rewrite !forallb_app in H.
  apply andb_true_iff in H as [_ H]. apply andb_true_iff in H as [Hw _].
  pose proof table_no_cr as Hc. rewrite forallb_forall in Hc.
  specialize (Hc _ HT). simpl in Hc. unfold adds_no_cr in Hc.
  apply andb_true_iff in Hc as [Hc H3]. apply andb_true_iff in Hc as [H1 H2].
  unfold fill. rewrite !forallb_app, H1, H2.
  destruct (rgap P); now rewrite ?H3, ?Hw.
Qed.

Lemma substitute_no_cr (c : str) :
  forallb not_cr c = true -> forallb not_cr (substitute c) = true.
Proof.
  change (substitute c) with (run rules c).
  assert (H : forall rs, incl rs rules -> forall x,
               forallb not_cr x = true -> forallb not_cr (run rs x) = true).
  { induction rs as [|r rs IH]; intros Hin x Hx; [exact Hx|].
    rewrite run_cons. apply IH; [intros y Hy; apply Hin; now right|].
    apply (apply_no_cr r x); [apply Hin; now left|exact Hx]. }
  apply H, incl_refl.
Qed.

(** ** The run on the disk *)

Lemma read_text_no_cr (d : disk) (p : path) (c : str) :
  read_text d p = Some c -> forallb not_cr c = true.
Proof.
  unfold read_text. destruct (holds d p) as [[|raw]|]; try discriminate.
  intros H. injection H as <-. apply read_newlines_no_cr.
Qed.

Lemma read_text_put (linesep : str) (d : disk) (p q : path) (x : str) :
  linesep_ok linesep -> forallb not_cr x = true ->
  read_text (put linesep d p x) q
  = if String.eqb q p then Some x else read_text d q.
Proof.
  intros Hls Hx. unfold read_text, put. simpl.
  destruct (String.eqb q p); [|reflexivity].
  now rewrite newlines_round_trip.
Qed.

Lemma read_text_put_other (linesep : str) (d : disk) (p q : path)
      (x : str) :
  String.eqb q p = false ->
  read_text (put linesep d p x) q = read_text d q.
Proof. intros H. unfold read_text, put. simpl. now rewrite H. Qed.

(** What one iteration does, by cases. *)
Lemma process_file_disk_inv (linesep : str) (p : path) (d d1 : disk)
      (t1 : list event) (r : option error) :
  process_file_disk linesep p d = (d1, t1, r) ->
  (r = None
   /\ exists c, read_text d p = Some c
      /\ ((substitute c = c /\ d1 = d
           /\ forall q x, ~ In (EWrite q x) t1)
          \/ (substitute c <> c /\ writable d p = true
              /\ d1 = put linesep d p (substitute c)
              /\ forall q x, In (EWrite q x) t1
                             <-> q = p /\ x = substitute c)))
  \/ (r <> None /\ d1 = d /\ forall q x, ~ In (EWrite q x) t1).
Proof.
  unfold process_file_disk, read_text.
  destruct (holds d p) as [[|raw]|].
  - intros H. injection H as <- <- <-. right.
    split; [discriminate|split; [reflexivity|]].
    intros q x [H|[H|[]]]; discriminate.
  - destruct (str_eqb (substitute (universal_newlines raw))
                      (universal_newlines raw)) eqn:E; simpl negb; cbv iota.
    + apply str_eqb_spec in E. intros H. injection H as <- <- <-. left.
      split; [reflexivity|]. exists (universal_newlines raw).
      split; [reflexivity|]. left. split; [exact E|split; [reflexivity|]].
      intros q x H. simpl in H.
      repeat (destruct H as [H|H]; [discriminate|]). destruct H.
    + assert (Hne : substitute (universal_newlines raw)
                    <> universal_newlines raw)
        by (intros X; apply str_eqb_spec in X; congruence).
      destruct (writable d p) eqn:Hw.
      * intros H. injection H as <- <- <-. left.
        split; [reflexivity|]. exists (universal_newlines raw).
        split; [reflexivity|]. right.
        split; [exact Hne|split; [reflexivity|split; [reflexivity|]]].
        intros q x. split.
        -- intros H. simpl in H.
           repeat (destruct H as [H|H]; [try discriminate|]); [|destruct H].
           injection H as <- <-. now split.
        -- intros [-> ->]. simpl. do 4 right. now left.
      * intros H. injection H as <- <- <-. right.
        split; [discriminate|split; [reflexivity|]].
        intros q x H. simpl in H.
        repeat (destruct H as [H|H]; [discriminate|]). destruct H.
  - intros H. injection H as <- <- <-. right.
    split; [discriminate|split; [reflexivity|]].
    intros q x [H|[]]. discriminate.
Qed.

Lemma process_all_disk_step (linesep : str) (p : path) (rest : list path)
      (d d' : disk) (t : list event) (r : option error) :
  process_all_disk linesep (p :: rest) d = (d', t, r) ->
  exists d1 t1 r1,
    process_file_disk linesep p d = (d1, t1, r1)
    /\ ((r1 <> None /\ d' = d1 /\ t = t1 /\ r = r1)
        \/ (r1 = None
            /\ exists t2, process_all_disk linesep rest d1 = (d', t2, r)
                          /\ t = t1 ++ t2)).
Proof.
  simpl. destruct (process_file_disk linesep p d) as [[d1 t1] [e|]].
  - intros H. injection H as <- <- <-. exists d1, t1, (Some e).
    split; [reflexivity|]. left. now repeat split.
  - destruct (process_all_disk linesep rest d1) as [[d2 t2] r2] eqn:E2.
    intros H. injection H as <- <- <-. exists d1, t1, None.
    split; [reflexivity|]. right. split; [reflexivity|].
    exists t2. split; [exact E2|reflexivity].
Qed.

Lemma main_disk_inv (linesep : str) (files : list path) (d d' : disk)
      (t : list event) (r : option error) :
  main_disk linesep files d = (d', t, r) ->
  exists t0, process_all_disk linesep files d = (d', t0, r)
             /\ forall q x, In (EWrite q x) t -> In (EWrite q x) t0.
Proof.
  unfold main_disk.
  destruct (process_all_disk linesep files d) as [[d1 t1] [e|]];
    intros H; injection H as <- <- <-; exists t1; (split; [reflexivity|]).
  - intros q x [H|H]; [discriminate|exact H].
  - intros q x [H|H]; [discriminate|].
    apply in_app_or in H as [H|[H|[]]]; [exact H|discriminate].
Qed.

Lemma processed_fixed (linesep : str) (d : disk) (q : path) (c : str) :
  read_text d q = Some c -> substitute c = c ->
  processed linesep d q = holds d q.
Proof.
  intros Hq Hc. unfold processed. rewrite Hq.
  now rewrite Hc, str_eqb_refl.
Qed.

Lemma processed_changed (linesep : str) (d : disk) (q : path) (c : str) :
  read_text d q = Some c -> substitute c <> c ->
  processed linesep d q
  = Some (Text (write_newlines linesep (substitute c))).
Proof.
  intros Hq Hc. unfold processed. rewrite Hq.
  destruct (str_eqb (substitute c) c) eqn:E; [|reflexivity].
  apply str_eqb_spec in E. contradiction.
Qed.

Lemma process_all_disk_holds (linesep : str) (files : list path) :
  linesep_ok linesep ->
  forall d d' t,
    process_all_disk linesep files d = (d', t, None) ->
    forall q, holds d' q = if listed q files then processed linesep d q
                           else holds d q.
Proof.
  intros Hls. induction files as [|p files IH]; intros d d' t H q.
  - simpl in H. now injection H as <- _.
  - apply process_all_disk_step in H
      as (d1 & t1 & r1 & E1 & [(Hr & _ & _ & Hr')|(-> & t2 & E2 & _)]).
    { subst r1. now elim Hr. }
    specialize (IH _ _ _ E2 q).
    apply process_file_disk_inv in E1
      as [(_ & c & Hc & [(Hfix & -> & _)|(Hne & Hw & -> & _)])
         |(Hr & _)]; [| |now elim Hr].
    + (* nothing written at [p] *)
      rewrite IH. unfold listed. simpl.
      destruct (String.eqb_spec q p) as [->|_]; [|reflexivity]. simpl.
      destruct (existsb (String.eqb p) files); [reflexivity|].
      symmetry. now apply (processed_fixed linesep d p c).
    + (* [p] written *)
      pose proof (substitute_no_cr c (read_text_no_cr d p c Hc)) as Hno.
      rewrite IH. unfold listed. simpl.
      destruct (String.eqb_spec q p) as [->|Hqp]; simpl.
      * rewrite (processed_changed linesep d p c Hc Hne).
        assert (Hp1 : read_text (put linesep d p (substitute c)) p
                      = Some (substitute c))
          by (rewrite read_text_put, String.eqb_refl; auto).
        rewrite (processed_fixed linesep _ p _ Hp1 (substitute_fixpoint c)).
        simpl. rewrite String.eqb_refl.
        now destruct (existsb (String.eqb p) files).
      * apply String.eqb_neq in Hqp.
        unfold processed. rewrite (read_text_put_other _ _ _ _ _ Hqp).
        simpl. rewrite Hqp. reflexivity.
Qed.

Lemma read_processed (linesep : str) (d d' : disk) (q : path) :
  linesep_ok linesep ->
  holds d' q = processed linesep d q ->
  read_text d' q = option_map substitute (read_text d q).
Proof.
  intros Hls H. unfold processed in H.
  destruct (read_text d q) as [c|] eqn:Hq.
  - destruct (str_eqb (substitute c) c) eqn:E.
    + apply str_eqb_spec in E. unfold read_text in *. rewrite H.
      destruct (holds d q) as [[|raw]|]; try discriminate.
      injection Hq as ->. simpl. now rewrite E.
    + unfold read_text at 1. rewrite H. simpl.
      rewrite newlines_round_trip; [reflexivity|exact Hls|].
      apply substitute_no_cr, (read_text_no_cr d q c Hq).
  - unfold read_text in *. rewrite H. exact Hq.
Qed.

Lemma process_all_disk_stable (linesep : str) (files : list path) :
  forall d d' t r q x,
    process_all_disk linesep files d = (d', t, r) ->
    read_text d q = Some x -> substitute x = x ->
    holds d' q = holds d q /\ forall y, ~ In (EWrite q y) t.
Proof.
  induction files as [|p files IH]; intros d d' t r q x H Hq Hx.
  - simpl in H. injection H as <- <- _. now split.
  - apply process_all_disk_step in H
      as (d1 & t1 & r1 & E1 & [(Hr & -> & -> & ->)|(-> & t2 & E2 & ->)]).
    + apply process_file_disk_inv in E1
        as [(-> & _)|(_ & -> & Hw)]; [now elim Hr|now split].
    + apply process_file_disk_inv in E1
        as [(_ & c & Hc & [(Hfix & -> & Hw)|(Hne & Hwr & -> & Hw)])
           |(Hr & _)]; [| |now elim Hr].
      * destruct (IH _ _ _ _ _ _ E2 Hq Hx) as [Hh Hn].
        split; [exact Hh|]. intros y Hin.
        apply in_app_or in Hin as [Hin|Hin];
          [now apply (Hw q y)|now apply (Hn y)].
      * destruct (String.eqb_spec q p) as [->|Hqp].
        { rewrite Hq in Hc. injection Hc as <-. contradiction. }
        apply String.eqb_neq in Hqp.
        assert (Hq1 : read_text (put linesep d p (substitute c)) q = Some x)
          by (now rewrite read_text_put_other).
        destruct (IH _ _ _ _ _ _ E2 Hq1 Hx) as [Hh Hn].
        split; [rewrite Hh; simpl; now rewrite Hqp|].
        intros y Hin. apply in_app_or in Hin as [Hin|Hin].
        -- apply Hw in Hin as [-> _]. rewrite String.eqb_refl in Hqp.
           discriminate.
        -- now apply (Hn y).
Qed.

Lemma process_all_disk_writes (linesep : str) (files : list path) :
  linesep_ok linesep ->
  forall d d' t r q x,
    process_all_disk linesep files d = (d', t, r) ->
    In (EWrite q x) t ->
    In q files
    /\ (exists c, read_text d q = Some c /\ x = substitute c
                  /\ substitute c <> c)
    /\ writable d q = true
    /\ holds d' q = Some (Text (write_newlines linesep x)).
Proof.
  intros Hls. induction files as [|p files IH]; intros d d' t r q x H Hin.
  - simpl in H. injection H as _ <- _. destruct Hin.
  - apply process_all_disk_step in H
      as (d1 & t1 & r1 & E1 & [(Hr & -> & -> & ->)|(-> & t2 & E2 & ->)]).
    + apply process_file_disk_inv in E1
        as [(-> & _)|(_ & -> & Hw)]; [now elim Hr|now elim (Hw q x)].
    + apply process_file_disk_inv in E1
        as [(_ & c & Hc & [(Hfix & -> & Hw)|(Hne & Hwr & -> & Hw)])
           |(Hr & _)]; [| |now elim Hr].
      * apply in_app_or in Hin as [Hin|Hin]; [now elim (Hw q x)|].
        destruct (IH _ _ _ _ _ _ E2 Hin) as (Hq & Hex & Hwq & Hh).
        split; [now right|]. now repeat split.
      * pose proof (substitute_no_cr c (read_text_no_cr d p c Hc)) as Hno.
        assert (Hp1 : read_text (put linesep d p (substitute c)) p
                      = Some (substitute c))
          by (rewrite read_text_put, String.eqb_refl; auto).
        apply in_app_or in Hin as [Hin|Hin].
        -- apply Hw in Hin as [-> ->].
           split; [now left|]. split; [now exists c|].
           split; [exact Hwr|].
           destruct (process_all_disk_stable _ _ _ _ _ _ _ _ E2 Hp1
                       (substitute_fixpoint c)) as [Hh _].
           rewrite Hh. simpl. now rewrite String.eqb_refl.
        -- destruct (IH _ _ _ _ _ _ E2 Hin)
             as (Hq & (c' & Hc' & -> & Hne') & Hwq & Hh).
           destruct (String.eqb_spec q p) as [->|Hqp].
           { rewrite Hp1 in Hc'. injection Hc' as <-.
             now rewrite substitute_fixpoint in Hne'. }
           apply String.eqb_neq in Hqp.
           rewrite read_text_put_other in Hc' by exact Hqp.
           split; [now right|]. split; [now exists c'|]. now split.
Qed.

Lemma process_all_disk_requires (linesep : str) (files : list path) :
  forall d d' t,
    process_all_disk linesep files d = (d', t, None) ->
    forall p, In p files ->
              exists c, read_text d p = Some c
                        /\ (substitute c <> c -> writable d p = true).
Proof.
  induction files as [|p0 files IH]; intros d d' t H p Hp; [destruct Hp|].
  apply process_all_disk_step in H
    as (d1 & t1 & r1 & E1 & [(Hr & _ & _ & Hr')|(-> & t2 & E2 & _)]).
  { subst r1. now elim Hr. }
  apply process_file_disk_inv in E1
    as [(_ & c & Hc & Hcase)|(Hr & _)]; [|now elim Hr].
  destruct (String.eqb_spec p p0) as [->|Hne].
  - exists c. split; [exact Hc|].
    destruct Hcase as [(Hfix & _)|(_ & Hw & _)];
      [intros X; contradiction|intros _; exact Hw].
  - destruct Hp as [->|Hp]; [now elim Hne|].
    apply String.eqb_neq in Hne.
    destruct Hcase as [(_ & -> & _)|(_ & _ & -> & _)].
    + now apply (IH _ _ _ E2).
    + destruct (IH _ _ _ E2 p Hp) as (c' & Hc' & Hw').
      rewrite read_text_put_other in Hc' by exact Hne.
      exists c'. split; [exact Hc'|exact Hw'].
Qed.

Lemma example_disk_run :
  main_disk nl [example_path; other_path] example_disk
  = (example_disk_after, example_disk_trace, None).
Proof. vm_compute. reflexivity. Qed.

Lemma linesep_nl : linesep_ok nl.
Proof. now left. Qed.

(** X12: after a run that completes, [f.read()] of a listed file returns
    the result of the substitutions on what [f.read()] returned before the
    run, also when the path is listed more than once; for a file that is
    not listed it returns what it returned before. *)
Theorem disk_read_result (linesep : str) (files : list path) (d d' : disk)
        (t : list event) :
  linesep_ok linesep ->
  main_disk linesep files d = (d', t, None) ->
  forall q, read_text d' q
            = if listed q files then option_map substitute (read_text d q)
              else read_text d q.
Proof.
  intros Hls H q. apply main_disk_inv in H as (t0 & H & _).
  pose proof (process_all_disk_holds linesep files Hls _ _ _ H q) as Hq.
  destruct (listed q files).
  - now apply (read_processed linesep).
  - unfold read_text. now rewrite Hq.
Qed.

Lemma disk_read_result_witness :
  linesep_ok nl
  /\ main_disk nl [example_path; other_path] example_disk
     = (example_disk_after, example_disk_trace, None)
  /\ forall q, read_text example_disk_after q
               = if listed q [example_path; other_path]
                 then option_map substitute (read_text example_disk q)
                 else read_text example_disk q.
Proof.
  split; [exact linesep_nl|split; [exact example_disk_run|]].
  exact (disk_read_result nl _ _ _ _ linesep_nl example_disk_run).
Defined.

(** X13: if the run completes, every listed path held text that decodes,
    and every listed file whose text the substitutions change could be
    opened for writing. *)
Theorem disk_completed_requires (linesep : str) (files : list path)
        (d d' : disk) (t : list event) (p : path) :
  main_disk linesep files d = (d', t, None) ->
  In p files ->
  exists c, read_text d p = Some c
            /\ (substitute c <> c -> writable d p = true).
Proof.
  intros H Hp. apply main_disk_inv in H as (t0 & H & _).
  now apply (process_all_disk_requires linesep files d d' t0).
Qed.

Lemma disk_completed_requires_witness :
  main_disk nl [example_path; other_path] example_disk
  = (example_disk_after, example_disk_trace, None)
  /\ In other_path [example_path; other_path]
  /\ exists c, read_text example_disk other_path = Some c
               /\ (substitute c <> c
                   -> writable example_disk other_path = true).
Proof.
  assert (Hp : In other_path [example_path; other_path])
    by (right; now left).
  split; [exact example_disk_run|split; [exact Hp|]].
  exact (disk_completed_requires nl _ _ _ _ _ example_disk_run Hp).
Defined.

(** X15: every write of a run, completed or not, goes to a listed file that
    could be opened for writing and whose text the substitutions change;
    what is handed to [f.write] is the result of the substitutions on what
    [f.read()] returned for the file before the run; after the run the file
    holds it with the line ends written as [os.linesep], and [f.read()]
    returns it. *)
Theorem disk_write (linesep : str) (files : list path) (d d' : disk)
        (t : list event) (r : option error) (q : path) (x : str) :
  linesep_ok linesep ->
  main_disk linesep files d = (d', t, r) ->
  In (EWrite q x) t ->
  In q files
  /\ (exists c, read_text d q = Some c /\ x = substitute c
                /\ substitute c <> c)
  /\ writable d q = true
  /\ holds d' q = Some (Text (write_newlines linesep x))
  /\ read_text d' q = Some x.
Proof.
  intros Hls H Hin. apply main_disk_inv in H as (t0 & H & Ht).
  apply Ht in Hin.
  destruct (process_all_disk_writes linesep files Hls _ _ _ _ _ _ H Hin)
    as (Hq & (c & Hc & -> & Hne) & Hw & Hh).
  split; [exact Hq|]. split; [now exists c|]. split; [exact Hw|].
  split; [exact Hh|].
  unfold read_text. rewrite Hh.
  rewrite newlines_round_trip; [reflexivity|exact Hls|].
  apply substitute_no_cr, (read_text_no_cr d q c Hc).
Qed.

Lemma disk_write_witness :
  linesep_ok nl
  /\ main_disk nl [example_path; other_path] example_disk
     = (example_disk_after, example_disk_trace, None)
  /\ In (EWrite example_path (td20 ++ nl ++ lit "x" ++ nl))
        example_disk_trace
  /\ In example_path [example_path; other_path]
  /\ (exists c, read_text example_disk example_path = Some c
                /\ td20 ++ nl ++ lit "x" ++ nl = substitute c
                /\ substitute c <> c)
  /\ writable example_disk example_path = true
  /\ holds example_disk_after example_path
     = Some (Text (write_newlines nl (td20 ++ nl ++ lit "x" ++ nl)))
  /\ read_text example_disk_after example_path
     = Some (td20 ++ nl ++ lit "x" ++ nl).
Proof.
  assert (Hin : In (EWrite example_path (td20 ++ nl ++ lit "x" ++ nl))
                   example_disk_trace)
    by (do 5 right; now left).
  split; [exact linesep_nl|split; [exact example_disk_run|]].
  split; [exact Hin|].
  exact (disk_write nl _ _ _ _ _ _ _ linesep_nl example_disk_run Hin).
Defined.

(** X18: after a run that completes, a file that is not listed, or whose
    text the substitutions do not change, holds exactly what it held, line
    ends included; a listed file whose text changes holds the new text with
    every line end written as [os.linesep]. *)
Theorem disk_stored_result (linesep : str) (files : list path)
        (d d' : disk) (t : list event) (q : path) :
  linesep_ok linesep ->
  main_disk linesep files d = (d', t, None) ->
  (listed q files = false -> holds d' q = holds d q)
  /\ (forall c, listed q files = true -> read_text d q = Some c ->
                (substitute c = c -> holds d' q = holds d q)
                /\ (substitute c <> c ->
                    holds d' q
                    = Some (Text (write_newlines linesep (substitute c))))).
Proof.
  intros Hls H. apply main_disk_inv in H as (t0 & H & _).
  pose proof (process_all_disk_holds linesep files Hls _ _ _ H q) as Hq.
  split.
  - intros Hl. now rewrite Hl in Hq.
  - intros c Hl Hc. rewrite Hl in Hq. split; intros Hs; rewrite Hq.
    + now apply (processed_fixed linesep d q c).
    + now apply (processed_changed linesep d q c).
Qed.

Lemma disk_stored_result_witness :
  linesep_ok nl
  /\ main_disk nl [example_path; other_path] example_disk
     = (example_disk_after, example_disk_trace, None)
  /\ (listed other_path [example_path; other_path] = false ->
      holds example_disk_after other_path = holds example_disk other_path)
  /\ (forall c, listed other_path [example_path; other_path] = true ->
                read_text example_disk other_path = Some c ->
                (substitute c = c ->
                 holds example_disk_after other_path
                 = holds example_disk other_path)
                /\ (substitute c <> c ->
                    holds example_disk_after other_path
                    = Some (Text (write_newlines nl (substitute c))))).
Proof.
  split; [exact linesep_nl|split; [exact example_disk_run|]].
  exact (disk_stored_result nl _ _ _ _ other_path linesep_nl
           example_disk_run).
Defined.

Lemma written_in (t : list event) (p : path) :
  In p (written t) <-> exists x, In (EWrite p x) t.
Proof.
  unfold written. rewrite in_flat_map. split.
  - intros (e & He & Hp). destruct e as [m|p' m e|p'|p' x]; simpl in Hp;
      try contradiction.
    destruct Hp as [->|[]]. now exists x.
  - intros (x & Hx). exists (EWrite p x). split; [exact Hx|now left].
Qed.

Lemma process_file_disk_written (linesep : str) (p : path) (d d1 : disk)
      (t1 : list event) (r : option error) :
  process_file_disk linesep p d = (d1, t1, r) ->
  written t1 = [] \/ written t1 = [p].
Proof.
  unfold process_file_disk.
  destruct (holds d p) as [[|raw]|];
    [| destruct (negb (str_eqb (substitute (universal_newlines raw))
                               (universal_newlines raw)));
       [destruct (writable d p)|] |];
    intros H; injection H as _ <- _; simpl; auto.
Qed.

Lemma process_all_disk_written (linesep : str) (files : list path) :
  linesep_ok linesep ->
  forall d d' t r,
    process_all_disk linesep files d = (d', t, r) -> NoDup (written t).
Proof.
  intros Hls. induction files as [|p files IH]; intros d d' t r H.
  - simpl in H. injection H as _ <- _. constructor.
  - apply process_all_disk_step in H
      as (d1 & t1 & r1 & E1 & [(Hr & -> & -> & ->)|(-> & t2 & E2 & ->)]).
    + destruct (process_file_disk_written _ _ _ _ _ _ E1) as [-> | ->];
        repeat constructor. intros [].
    + unfold written. rewrite flat_map_app.
      fold (written t1). fold (written t2).
      pose proof (IH _ _ _ _ E2) as Hnd.
      destruct (process_file_disk_written _ _ _ _ _ _ E1) as [-> | Hw1];
        [exact Hnd|].
      rewrite Hw1. simpl. constructor; [|exact Hnd].
      intros Hin. apply written_in in Hin as (y & Hy).
      assert (Hp : In p (written t1)) by (rewrite Hw1; now left).
      apply written_in in Hp as (x & Hx).
      apply process_file_disk_inv in E1
        as [(_ & c & Hc & [(_ & _ & Hn)|(Hne & _ & -> & _)])
           |(Hr & _)]; [now elim (Hn p x)| |now elim Hr].
      pose proof (substitute_no_cr c (read_text_no_cr d p c Hc)) as Hno.
      assert (Hp1 : read_text (put linesep d p (substitute c)) p
                    = Some (substitute c))
        by (rewrite read_text_put, String.eqb_refl; auto).
      destruct (process_all_disk_stable _ _ _ _ _ _ _ _ E2 Hp1
                  (substitute_fixpoint c)) as [_ Hn].
      now apply (Hn y).
Qed.

(** X19: no run on the disk, whether it completes or is ended by an
    exception, writes a file twice, also when its path is listed more than
    once. *)
Theorem disk_written_once (linesep : str) (files : list path) (d d' : disk)
        (t : list event) (r : option error) :
  linesep_ok linesep ->
  main_disk linesep files d = (d', t, r) -> NoDup (written t).
Proof.
  intros Hls H. unfold main_disk in H.
  destruct (process_all_disk linesep files d) as [[d1 t1] r1] eqn:E.
  pose proof (process_all_disk_written linesep files Hls _ _ _ _ E) as Hnd.
  destruct r1 as [e|]; injection H as _ <- _.
  - exact Hnd.
  - unfold written in *. simpl. rewrite flat_map_app. simpl.
    now rewrite app_nil_r.
Qed.

Lemma example_disk_run_abort :
  main_disk crlf example_files_abort example_disk
  = (example_disk_after_crlf, example_disk_trace_abort, Some NotFound).
Proof. vm_compute. reflexivity. Qed.

Lemma linesep_crlf : linesep_ok crlf.
Proof. now right. Qed.

Lemma disk_written_once_witness :
  linesep_ok crlf
  /\ main_disk crlf example_files_abort example_disk
     = (example_disk_after_crlf, example_disk_trace_abort, Some NotFound)
  /\ NoDup (written example_disk_trace_abort).
Proof.
  split; [exact linesep_crlf|split; [exact example_disk_run_abort|]].
  exact (disk_written_once crlf _ _ _ _ _ linesep_crlf
           example_disk_run_abort).
Defined.

(** ** The two views of the loop agree *)

Lemma process_file_ext (p : path) (fs fs2 fs1 : file_system)
      (t : list event) :
  (forall q, fs q = fs2 q) ->
  process_file p fs = Some (fs1, t) ->
  exists fs1', process_file p fs2 = Some (fs1', t)
               /\ forall q, fs1 q = fs1' q.
Proof.
  intros Hext. unfold process_file. rewrite <- (Hext p).
  destruct (fs p) as [c|]; [|discriminate].
  destruct (negb (str_eqb (substitute c) c)); intros H;
    injection H as <- <-; eexists; (split; [reflexivity|]); intros q.
  - unfold store. now destruct (String.eqb q p).
  - apply Hext.
Qed.

Lemma process_all_ext (files : list path) :
  forall (fs fs2 fs' : file_system) (t : list event),
    (forall q, fs q = fs2 q) ->
    process_all files fs = Some (fs', t) ->
    exists fs2', process_all files fs2 = Some (fs2', t)
                 /\ forall q, fs' q = fs2' q.
Proof.
  induction files as [|p files IH]; intros fs fs2 fs' t Hext H.
  - simpl in H. injection H as <- <-. now exists fs2.
  - simpl in H.
    destruct (process_file p fs) as [[fs1 t1]|] eqn:E1; [|discriminate].
    destruct (process_all files fs1) as [[fs3 t3]|] eqn:E3; [|discriminate].
    injection H as <- <-.
    destruct (process_file_ext _ _ _ _ _ Hext E1) as (fs1' & E1' & Hext1).
    destruct (IH _ _ _ _ Hext1 E3) as (fs3' & E3' & Hext3).
    exists fs3'. simpl. rewrite E1', E3'. now split.
Qed.

Lemma process_file_disk_sim (linesep : str) (p : path) (d d1 : disk)
      (t1 : list event) :
  linesep_ok linesep ->
  process_file_disk linesep p d = (d1, t1, None) ->
  exists fs1, process_file p (read_text d) = Some (fs1, t1)
              /\ forall q, fs1 q = read_text d1 q.
Proof.
  intros Hls. unfold process_file_disk, process_file.
  destruct (holds d p) as [[|raw]|] eqn:Hh; try discriminate.
  assert (Hr : read_text d p = Some (universal_newlines raw))
    by (unfold read_text; now rewrite Hh).
  rewrite Hr.
  destruct (negb (str_eqb (substitute (universal_newlines raw))
                          (universal_newlines raw))).
  - destruct (writable d p); [|discriminate].
    intros H. injection H as <- <-. eexists. split; [reflexivity|].
    intros q. rewrite read_text_put; [reflexivity|exact Hls|].
    apply substitute_no_cr, read_newlines_no_cr.
  - intros H. injection H as <- <-. eexists. now split.
Qed.

Lemma process_all_disk_sim (linesep : str) (files : list path) :
  linesep_ok linesep ->
  forall d d' t,
    process_all_disk linesep files d = (d', t, None) ->
    exists fs', process_all files (read_text d) = Some (fs', t)
                /\ forall q, fs' q = read_text d' q.
Proof.
  intros Hls. induction files as [|p files IH]; intros d d' t H.
  - simpl in H. injection H as <- <-. now exists (read_text d).
  - apply process_all_disk_step in H
      as (d1 & t1 & r1 & E1 & [(Hr & _ & _ & Hr')|(-> & t2 & E2 & ->)]).
    { subst r1. now elim Hr. }
    destruct (process_file_disk_sim _ _ _ _ _ Hls E1) as (fs1 & F1 & Hext1).
    destruct (IH _ _ _ E2) as (fs2 & F2 & Hext2).
    assert (Hsym : forall q, read_text d1 q = fs1 q)
      by (intros q; symmetry; apply Hext1).
    destruct (process_all_ext _ _ _ _ _ Hsym F2) as (fs2' & F2' & Hext3).
    exists fs2'. simpl. rewrite F1, F2'. split; [reflexivity|].
    intros q. now rewrite <- Hext3.
Qed.

(** A run that completes on the disk, seen through [f.read()], is the run
    of [main] on the texts: the same trace and the same texts at the end. *)
Lemma main_disk_sim (linesep : str) (files : list path) (d d' : disk)
      (t : list event) :
  linesep_ok linesep ->
  main_disk linesep files d = (d', t, None) ->
  exists fs', main files (read_text d) = Some (fs', t)
              /\ forall q, fs' q = read_text d' q.
Proof.
  intros Hls H. unfold main_disk in H.
  destruct (process_all_disk linesep files d) as [[d1 t1] [e|]] eqn:E;
    [discriminate|].
  injection H as <- <-.
  destruct (process_all_disk_sim linesep files Hls _ _ _ E)
    as (fs' & F & Hext).
  exists fs'. unfold main. rewrite F. now split.
Qed.

(** A pass that keeps a matched fragment is not a rewriting. *)
Lemma rewritten_changes_match : ~ rewritten rule8 td24 td24.
Proof.
  intros H. apply rewritten_apply in H; [|do 6 right; now left].
  vm_compute in H. discriminate.
Qed.
